(** * bytewise-space: namespaces over an ordered key-value store

    A shallow embedding of the three source files of the repository:

    - [Part000]  the [Prefix] object and the updown hooks of [space]
                 (src/unnamed/part_000): [contains], [decode], [encode],
                 [append], [postNext] and the range translator [preIterator];
    - [Index]    [space.batch] of the [Bytespace] of src/index.js;
    - [Part001]  [this.batch] of the older [Bytespace] of
                 src/unnamed/part_001;
    - [addHook], [pre] and [post], which the two [Bytespace] files share.

    JavaScript values are a small tagged union, buffers are lists of bytes,
    option objects are finite maps from property names to values, arrays
    with holes are lists of optional elements, and code that can throw
    returns a [result].  One call of [batch] is the list of the steps it
    takes: the hooks it runs, the keys it encodes, what it hands to the
    store and what it calls back with.

    Two things the sources use are not among them: [bytewise.encode] of
    the package bytewise-core, which is a parameter, and the [Namespace]
    object of ./namespace with its [trigger], which is modelled from the
    specification. *)

From Stdlib Require Import ZArith Strings.Byte Strings.String Strings.Ascii.
From stdpp Require Import gmap strings list fin_maps.

Set Default Proof Using "Type".
Set Warnings "-register-all".

(* ===================================================================== *)
(** ** JavaScript values, buffers and exceptions                          *)
(* ===================================================================== *)

Abbreviation bytes := (list byte).

#[global] Instance byte_eq_decision : EqDecision byte := Byte.byte_eq_dec.

(** The values the modelled code inspects.  A string is kept as the
    sequence of its UTF-8 bytes (a Rocq [string] is a byte string), so that
    [new Buffer(s)] is [list_byte_of_string s]. *)
Inductive Value : Type :=
| VUndefined
| VNull
| VBool (b : bool)
| VNum (z : Z)
| VStr (s : string)
| VBuf (b : bytes)
| VArr (l : list Value).

Inductive Error : Type :=
| AssertionError        (* assert(...) failed *)
| TypeError             (* a property of undefined, a non-buffer in Buffer.concat, ... *)
| OtherError (msg : string).   (* any other error object *)

Inductive result (A : Type) : Type :=
| Ok (a : A)
| Throw (e : Error).
Arguments Ok {A} a.
Arguments Throw {A} e.

(** The error monad of code that can throw; [x ← m; k] is stdpp's
    notation for [mbind]. *)
#[global] Instance result_ret : MRet result := λ A a, Ok a.
#[global] Instance result_bind : MBind result := λ A B f m,
  match m with
  | Ok a => f a
  | Throw e => Throw e
  end.

#[global] Instance result_fmap : FMap result := λ A B f m,
  match m with
  | Ok a => Ok (f a)
  | Throw e => Throw e
  end.

Definition is_Ok {A} (m : result A) : Prop := ∃ a, m = Ok a.

(** [Buffer.isBuffer(v)] *)
Definition isBuffer (v : Value) : bool :=
  match v with VBuf _ => true | _ => false end.

(** JavaScript truthiness, as used by [!x], [x || y] and [if (x)]. *)
Definition truthy (v : Value) : bool :=
  match v with
  | VUndefined | VNull => false
  | VBool b => b
  | VNum z => negb (z =? 0)%Z
  | VStr s => negb (bool_decide (s = ""))
  | VBuf _ | VArr _ => true
  end.

(** [v == null]: true of [null] and [undefined] only. *)
Definition loose_eq_null (v : Value) : bool :=
  match v with VUndefined | VNull => true | _ => false end.

(** [Buffer.concat(list)]: every element has to be a buffer. *)
Fixpoint Buffer_concat (list : list Value) : result bytes :=
  match list with
  | [] => Ok []
  | VBuf b :: rest => r ← Buffer_concat rest; Ok (b ++ r)
  | _ :: _ => Throw TypeError
  end.

(** [buf.toString('utf8')].  A string being kept as its UTF-8 bytes, a
    well-formed sequence is handed on as it is and what is ill-formed is
    replaced by U+FFFD, one for every maximal part of an ill-formed
    sequence, as the decoder of the runtime does. *)
Definition REPLACEMENT : bytes := [ xef; xbf; xbd ].

Definition byte_in (lo hi : N) (b : byte) : bool :=
  ((lo <=? Byte.to_N b) && (Byte.to_N b <=? hi))%N.

(** Inside a sequence of several bytes: the bytes seen so far, the number
    of bytes to come, and the range the next byte has to lie in. *)
Record Pending : Type := mkPending {
  seen : bytes;
  needed : nat;
  lower : N;
  upper : N
}.

(** The first byte of a sequence. *)
Definition utf8_lead (b : byte) : bytes * option Pending :=
  let n := Byte.to_N b in
  if (n <=? 127)%N then ([ b ], None)
  else if byte_in 194 223 b then
    ([], Some {| seen := [ b ]; needed := 1; lower := 128; upper := 191 |})
  else if byte_in 224 239 b then
    ([], Some {| seen := [ b ]; needed := 2;
                 lower := if (n =? 224)%N then 160 else 128;
                 upper := if (n =? 237)%N then 159 else 191 |})
  else if byte_in 240 244 b then
    ([], Some {| seen := [ b ]; needed := 3;
                 lower := if (n =? 240)%N then 144 else 128;
                 upper := if (n =? 244)%N then 143 else 191 |})
  else (REPLACEMENT, None).

Fixpoint utf8_decode (st : option Pending) (input : bytes) : bytes :=
  match input with
  | [] => match st with Some _ => REPLACEMENT | None => [] end
  | b :: rest =>
      match st with
      | None => let '(out, st') := utf8_lead b in out ++ utf8_decode st' rest
      | Some p =>
          if byte_in (lower p) (upper p) b then
            match needed p with
            | S (S n) =>
                utf8_decode
                  (Some {| seen := seen p ++ [ b ]; needed := S n;
                           lower := 128; upper := 191 |}) rest
            | _ => seen p ++ [ b ] ++ utf8_decode None rest
            end
          else
            let '(out, st') := utf8_lead b in
            REPLACEMENT ++ out ++ utf8_decode st' rest
      end
  end.

Definition Buffer_toString (b : bytes) : string :=
  string_of_list_byte (utf8_decode None b).

(** The bytes are well-formed UTF-8. *)
Definition utf8_valid (b : bytes) : bool :=
  bool_decide (utf8_decode None b = b).

(** [path.concat(sub)]: an array argument is spliced in, anything else is
    appended as one element. *)
Definition Array_concat (path : list Value) (sub : Value) : list Value :=
  match sub with
  | VArr items => path ++ items
  | _ => path ++ [sub]
  end.

(** [Array.isArray(v)] *)
Definition isArray (v : Value) : bool :=
  match v with VArr _ => true | _ => false end.

(** [a] is a strict byte prefix of [b]. *)
Definition strict_prefix (a b : bytes) : Prop := a `prefix_of` b ∧ a ≠ b.

(** Byte-wise (memcmp) order of keys in the underlying store. *)
Fixpoint bytes_le (a b : bytes) : bool :=
  match a, b with
  | [], _ => true
  | _ :: _, [] => false
  | x :: a', y :: b' =>
      if (Byte.to_N x <? Byte.to_N y)%N then true
      else if (Byte.to_N y <? Byte.to_N x)%N then false
      else bytes_le a' b'
  end.

Definition bytes_lt (a b : bytes) : bool := negb (bytes_le b a).

(* ===================================================================== *)
(** ** src/unnamed/part_000: [Prefix] and the updown hooks                *)
(* ===================================================================== *)

Module Part000.

(** [function Prefix(path)]: the object keeps the path and its encoding. *)
Record Prefix : Type := mkPrefix {
  path : list Value;
  buffer : bytes
}.

Section Bytewise.
(** [bytewise.encode] of the package bytewise-core is not part of the
    sources: the encoding of a path is a parameter. *)
Variable bytewise_encode : list Value → bytes.

(** [new Prefix(path)] *)
Definition new_Prefix (path : list Value) : Prefix :=
  {| path := path; buffer := bytewise_encode path |}.

(** [Prefix.prototype.append] *)
Definition append (this : Prefix) (sub : Value) : Prefix :=
  new_Prefix (Array_concat (path this) sub).
End Bytewise.

(** [Prefix.prototype.contains] *)
Definition contains (this : Prefix) (key : Value) : result bool :=
  match key with
  | VBuf k => Ok (bool_decide (buffer this = take (length (buffer this)) k))
  | _ => Throw AssertionError
  end.

(** [Prefix.prototype.decode] *)
Definition decode (this : Prefix) (key : Value) : result Value :=
  c ← contains this key;
  if negb c then Ok key
  else match key with
       | VBuf k => Ok (VBuf (drop (length (buffer this)) k))
       | _ => Throw TypeError (* not reached: [contains] asserted a buffer *)
       end.

(** [Prefix.prototype.encode] *)
Definition encode (this : Prefix) (key : Value) : result Value :=
  let key := match key with
             | VStr s => VBuf (list_byte_of_string s)
             | _ => key
             end in
  b ← Buffer_concat [ VBuf (buffer this); key ];
  Ok (VBuf b).

(** [postNext], bound to the prefix and to the caller's [keyAsBuffer];
    the result is the key handed to [next]. *)
Definition postNext (this : Prefix) (keyAsBuffer err key : Value)
  : result Value :=
  if truthy err || loose_eq_null key then Ok key
  else
    key ← decode this key;
    if truthy keyAsBuffer then Ok key
    else match key with
         | VBuf b => Ok (VStr (Buffer_toString b))
         | _ => Throw TypeError
         end.

Definition LOWER_BOUND : Value := VBuf [].
Definition UPPER_BOUND : Value := VBuf [ xff ].
Definition rangeKeys : list string :=
  [ "start"; "end"; "gt"; "lt"; "gte"; "lte" ].

(** An options object; [k in options] is [is_Some (options !! k)]. *)
Abbreviation Options := (gmap string Value).

Definition has_key (options : Options) (key : string) : bool :=
  bool_decide (is_Some (options !! key)).

(** [options.key]: a missing property reads as [undefined]. *)
Definition prop (options : Options) (key : string) : Value :=
  default VUndefined (options !! key).

(** The [has] object of [preIterator]. *)
Record Has : Type := mkHas {
  has_start : bool; has_end : bool;
  has_gt : bool; has_lt : bool; has_gte : bool; has_lte : bool
}.

Definition has_of (options : Options) : Has :=
  {| has_start := has_key options "start"; has_end := has_key options "end";
     has_gt := has_key options "gt"; has_lt := has_key options "lt";
     has_gte := has_key options "gte"; has_lte := has_key options "lte" |}.

(** Lines 152-170: [start]/[end] are rewritten to [gte]/[lte] unless one
    of [gt], [lt], [gte], [lte] is there as well (the empty TODO
    branch). *)
Definition translate_start_end (has : Has) (options : Options)
  : Has * Options :=
  if has_start has || has_end has then
    if has_gt has || has_lt has || has_gte has || has_lte has then
      (has, options)
    else
      let options :=
        if negb (truthy (prop options "reverse")) then
          let options :=
            <["gte" := if has_start has then prop options "start"
                       else LOWER_BOUND]> options in
          <["lte" := if has_end has then prop options "end"
                     else UPPER_BOUND]> options
        else
          let options :=
            <["gte" := if has_end has then prop options "end"
                       else LOWER_BOUND]> options in
          <["lte" := if has_start has then prop options "start"
                     else UPPER_BOUND]> options in
      let has :=
        {| has_start := has_start has; has_end := has_end has;
           has_gt := has_gt has; has_lt := has_lt has;
           has_gte := true; has_lte := true |} in
      (has, delete "end" (delete "start" options))
  else (has, options).

(** Lines 172-181. *)
Definition resolve_lower (this : Prefix) (has : Has) (options : Options)
  : result Options :=
  if has_gt has then
    v ← encode this (prop options "gt");
    Ok (delete "gte" (<["gt" := v]> options))
  else if has_gte has then
    v ← encode this (prop options "gte");
    Ok (<["gte" := v]> options)
  else
    v ← encode this LOWER_BOUND;
    Ok (<["gt" := v]> options).

(** Lines 183-191. *)
Definition resolve_upper (this : Prefix) (has : Has) (options : Options)
  : result Options :=
  if has_lt has then
    v ← encode this (prop options "lt");
    Ok (delete "lte" (<["lt" := v]> options))
  else if has_lte has then
    v ← encode this (prop options "lte");
    Ok (<["lte" := v]> options)
  else
    v ← encode this UPPER_BOUND;
    Ok (<["lt" := v]> options).

(** What [preIterator] returns: the options for the wrapped factory and
    the caller's [keyAsBuffer], which [$postNext] is bound to. *)
Record Translated : Type := mkTranslated {
  options : Options;
  keyAsBuffer : Value
}.

(** [preIterator(pre)], bound to the prefix; [pre_options] is
    [pre.options], copied by [xtend]. *)
Definition preIterator (this : Prefix) (pre_options : Options)
  : result Translated :=
  let options := pre_options in
  let keyAsBuffer := prop options "keyAsBuffer" in
  let options := <["keyAsBuffer" := VBool true]> options in
  let has := has_of options in
  let '(has, options) := translate_start_end has options in
  options ← resolve_lower this has options;
  options ← resolve_upper this has options;
  Ok {| options := options; keyAsBuffer := keyAsBuffer |}.

(** The keys a store hands back for the translated bounds: above [gt],
    at or above [gte], below [lt], at or below [lte]. *)
Definition in_range (options : Options) (key : bytes) : Prop :=
  (∀ b, options !! "gt" = Some (VBuf b) → bytes_lt b key = true) ∧
  (∀ b, options !! "gte" = Some (VBuf b) → bytes_le b key = true) ∧
  (∀ b, options !! "lt" = Some (VBuf b) → bytes_lt key b = true) ∧
  (∀ b, options !! "lte" = Some (VBuf b) → bytes_le key b = true).

(** A bound the caller can pass: a string or a buffer. *)
Definition key_bytes (key : Value) : option bytes :=
  match key with
  | VStr s => Some (list_byte_of_string s)
  | VBuf b => Some b
  | _ => None
  end.

(** The two ways a caller can mix the bound styles: [start]/[end] alone
    (the branch that is translated), or together with one of [gt], [lt],
    [gte], [lte] (the empty TODO branch). *)
Definition explicit_bounds (options : Options) : bool :=
  has_key options "gt" || has_key options "lt"
  || has_key options "gte" || has_key options "lte".

Definition start_end_only (options : Options) : bool :=
  (has_key options "start" || has_key options "end")
  && negb (explicit_bounds options).

Definition mixed_bounds (options : Options) : bool :=
  (has_key options "start" || has_key options "end")
  && explicit_bounds options.

(** The flags of [has] agree with the options on the explicit bounds. *)
Definition agrees (has : Has) (o : Options) : Prop :=
  has_gt has = has_key o "gt" ∧ has_gte has = has_key o "gte" ∧
  has_lt has = has_key o "lt" ∧ has_lte has = has_key o "lte".

(** The range properties whose values [preIterator] may encode. *)
Definition encodable (options : Options) : Prop :=
  ∀ k v, k ∈ rangeKeys → options !! k = Some v → is_Some (key_bytes v).

(** The bound of the caller that lines 172-181 take as the lower bound:
    [gt] if the property is there, otherwise [gte]; and the one that
    lines 183-191 take as the upper bound: [lt], otherwise [lte]. *)
Definition lower_given (options : Options) : option Value :=
  match options !! "gt" with
  | Some v => Some v
  | None => options !! "gte"
  end.

Definition upper_given (options : Options) : option Value :=
  match options !! "lt" with
  | Some v => Some v
  | None => options !! "lte"
  end.

(** There is no such bound, or it is a string or a buffer. *)
Definition bound_ok (bound : option Value) : Prop :=
  match bound with
  | Some v => is_Some (key_bytes v)
  | None => True
  end.

End Part000.

(* ===================================================================== *)
(** ** Objects shared by the two [Bytespace] files                        *)
(* ===================================================================== *)

(** A hook is a function object; [indexOf] compares hooks by reference,
    so a hook is represented by its identity. *)
Abbreviation Hook := nat (only parsing).

(** Modelled from the spec: ./namespace is not part of the sources.  A
    [Namespace] carries its prefix bytes, the key encoding, the [hex] flag
    and the two ordered hook lists [prehooks] and [posthooks]. *)
Record Namespace : Type := mkNamespace {
  ns_buffer : bytes;
  ns_keyEncoding : Value;
  ns_hex : bool;
  prehooks : list Hook;
  posthooks : list Hook
}.

(** What a [namespace] property holds: an instance of [Namespace], or
    anything else ([undefined], or some other object, told apart by
    [id]). *)
Inductive NsRef : Type :=
| Instance (ns : Namespace)
| Other (id : nat).

(** [ns instanceof Namespace] *)
Definition instance (r : NsRef) : option Namespace :=
  match r with
  | Instance ns => Some ns
  | Other _ => None
  end.

(** [db.options] *)
Record DbOptions : Type := mkDbOptions {
  opt_keyEncoding : Value;
  opt_valueEncoding : Value
}.

(** What [op.prefix] refers to: a [Bytespace], or any other object;
    [space_id] is the identity of the object. *)
Record Space : Type := mkSpace {
  space_id : nat;
  namespace : NsRef;
  space_options : option DbOptions
}.

(** One operation of a batch: an object, which the array of the batch,
    the hooks and the store share.  [op_id] is the identity of the
    object, the other fields are its properties as they are at some
    moment; the last three are the ones part_001 adds during a commit. *)
Record Op : Type := mkOp {
  op_id : nat;
  op_type : Value;
  op_key : Value;
  op_value : Value;
  op_prefix : option Space;
  op_keyEncoding : Value;
  op_valueEncoding : Value;
  op_sync : Value;
  op_initialKey : Value;
  op_initialKeyEncoding : Value;
  op_prefixId : option nat
}.

(** An array of operations; [None] is a hole left by [delete ops[i]].
    An object that is in the array twice is there as two entries with the
    same [op_id]. *)
Abbreviation OpArray := (list (option Op)).

(** A write to the properties of the object [x]: it shows in every entry
    of the array that is this object. *)
Definition write_obj (x : nat) (f : Op → Op) (ops : OpArray) : OpArray :=
  fmap (M := option) (λ o, if decide (op_id o = x) then f o else o) <$> ops.

(** The identity of an object does not change with its properties. *)
Definition with_id (x : nat) (op : Op) : Op :=
  {| op_id := x; op_type := op_type op; op_key := op_key op;
     op_value := op_value op; op_prefix := op_prefix op;
     op_keyEncoding := op_keyEncoding op;
     op_valueEncoding := op_valueEncoding op; op_sync := op_sync op;
     op_initialKey := op_initialKey op;
     op_initialKeyEncoding := op_initialKeyEncoding op;
     op_prefixId := op_prefixId op |}.

Definition assign (f : Op → Op) (op : Op) : Op := with_id (op_id op) (f op).

(** What a hook can do besides returning: write to the properties of an
    operation object, change the array [ops] it shares with the batch in
    any way, and throw. *)
Inductive Effect : Type :=
| Assign (x : nat) (f : Op → Op)
| Rewrite (g : OpArray → OpArray)
| Raise (e : Error).

(** What a pre-hook can do: call the [add] function it receives, as
    [add(false)] or [add(op)], or any of the above. *)
Inductive Mutation : Type :=
| AddFalse
| AddOp (op : Op)
| Direct (w : Effect).

(** What the batch callback is called with. *)
Inductive CbError : Type :=
| Message (s : string)        (* cb('...') *)
| Exception (e : Error).      (* cb(err) *)

(** The observable steps of one [batch] call, in order; [S] is the type
    of the entries handed to the store. *)
Inductive Event (S : Type) : Type :=
| PreHook (h : Hook) (op : Op)
| KeyEncoded (ns : NsRef) (key : Value)
| StoreBatch (ops : list (option S))
| PostHook (h : Hook) (op : Op)
| Callback (err : option CbError)
| Uncaught (e : Error).
Arguments PreHook {S} h op.
Arguments KeyEncoded {S} ns key.
Arguments StoreBatch {S} ops.
Arguments PostHook {S} h op.
Arguments Callback {S} err.
Arguments Uncaught {S} e.

(** What a trace shows of the callback, of key encoding, of the store and
    of the post-commit pass. *)
Definition callbacks {S} (tr : list (Event S)) : list (option CbError) :=
  omap (λ e, match e with Callback err => Some err | _ => None end) tr.

Definition key_encodings {S} (tr : list (Event S))
  : list (NsRef * Value) :=
  omap (λ e, match e with KeyEncoded ns k => Some (ns, k) | _ => None end) tr.

Definition store_calls {S} (tr : list (Event S)) : list (list (option S)) :=
  omap (λ e, match e with StoreBatch ops => Some ops | _ => None end) tr.

Definition post_hooked {S} (tr : list (Event S)) : list (Hook * Op) :=
  omap (λ e, match e with PostHook h op => Some (h, op) | _ => None end) tr.

Definition is_PreHook {S} (e : Event S) : Prop :=
  match e with PreHook _ _ => True | _ => False end.

Definition is_StoreBatch {S} (e : Event S) : Prop :=
  match e with StoreBatch _ => True | _ => False end.


(** How the pre-commit loop ends. *)
Inductive LoopExit : Type :=
| Done
| Returned (msg : string)     (* return cb(msg) *)
| Thrown (e : Error).

(** [a || b] *)
Definition or_else (a b : Value) : Value := if truthy a then a else b.

(** [addEncodings(op, db)] *)
Definition addEncodings (op : Op) (db : option Space) : Op :=
  match db ≫= space_options with
  | Some o =>
      {| op_id := op_id op;
         op_type := op_type op; op_key := op_key op; op_value := op_value op;
         op_prefix := op_prefix op;
         op_keyEncoding := or_else (op_keyEncoding op) (opt_keyEncoding o);
         op_valueEncoding := or_else (op_valueEncoding op) (opt_valueEncoding o);
         op_sync := op_sync op; op_initialKey := op_initialKey op;
         op_initialKeyEncoding := op_initialKeyEncoding op;
         op_prefixId := op_prefixId op |}
  | None => op
  end.

(** [op.prefix || (op.prefix = space)] *)
Definition default_prefix (space : Space) (op : Op) : Op :=
  {| op_id := op_id op;
     op_type := op_type op; op_key := op_key op; op_value := op_value op;
     op_prefix := Some (default space (op_prefix op));
     op_keyEncoding := op_keyEncoding op;
     op_valueEncoding := op_valueEncoding op;
     op_sync := op_sync op; op_initialKey := op_initialKey op;
     op_initialKeyEncoding := op_initialKeyEncoding op;
     op_prefixId := op_prefixId op |}.

(** The first two statements of the loop body, as one write to the
    object: [addEncodings(op, op.prefix)] and
    [op.prefix || (op.prefix = space)]. *)
Definition prepared (space : Space) (op : Op) : Op :=
  default_prefix space (addEncodings op (op_prefix op)).

(** The namespace that owns the operation, if its prefix has one. *)
Definition owner (space : Space) (op : Op) : option Namespace :=
  op_prefix (prepared space op) ≫= λ sp, instance (namespace sp).

(** The objects a hook sees while it runs: the operation it was called
    for and the array. *)
Abbreviation Scene := (Op * OpArray)%type.

Definition effect (w : Effect) (s : Scene) : Scene * option Error :=
  match w with
  | Assign x f =>
      ((if decide (op_id s.1 = x) then assign f s.1 else s.1,
        write_obj x (assign f) s.2), None)
  | Rewrite g => ((s.1, g s.2), None)
  | Raise e => (s, Some e)
  end.

(** The [add] closure of [batch], called while the loop is at index [i]:
    [delete ops[i]] leaves a hole, [ops.push(op)] appends. *)
Definition add (i : nat) (ops : OpArray) (x : Mutation) : OpArray :=
  match x with
  | AddFalse => <[i := None]> ops
  | AddOp op => ops ++ [Some op]
  | Direct _ => ops
  end.

Definition mutate (i : nat) (x : Mutation) (s : Scene)
  : Scene * option Error :=
  match x with
  | Direct w => effect w s
  | _ => ((s.1, add i s.2 x), None)
  end.

(** The steps of a hook in order, up to the first one that throws. *)
Fixpoint run {A} (step : A → Scene → Scene * option Error)
    (steps : list A) (s : Scene) : Scene * option Error :=
  match steps with
  | [] => (s, None)
  | a :: steps =>
      let '(s, err) := step a s in
      match err with
      | Some e => (s, Some e)
      | None => run step steps s
      end
  end.

(** The hook functions of the environment.  A hook is any function: what
    it does when it is called depends on the operation and the array it
    is called with and on what the hooks keep between calls ([Memory]).
    A pre-hook is called with [(op, add, ops)], a post-hook with [(op)];
    the array is within reach of a post-hook as well, through the caller
    of [batch].  [other_post] stands for what
    [if (ns.posthooks.length) ns.trigger(...)] of part_001 does when [ns]
    is not a [Namespace]. *)
Record Hooks : Type := mkHooks {
  Memory : Type;
  memory0 : Memory;
  pre_body : Hook → Op → OpArray → Memory → list Mutation * Memory;
  post_body : Hook → Op → OpArray → Memory → list Effect * Memory;
  other_post : nat → Op → OpArray → Memory → list Effect * Memory
}.

Section Hooks.
Variable H : Hooks.

(** Modelled from the spec: [Namespace.prototype.trigger] is not part of
    the sources; the hooks of the list are invoked one after the other in
    registration order with the given arguments, and an exception of a
    hook ends the pass.  Here the arguments are [(op, add, ops)] of the
    pre-commit pass. *)
Fixpoint trigger_pre {S} (hooks : list Hook) (i : nat) (s : Scene)
    (m : Memory H) (log : list (Event S))
  : option Error * Scene * Memory H * list (Event S) :=
  match hooks with
  | [] => (None, s, m, log)
  | h :: hooks =>
      let '(steps, m) := pre_body H h s.1 s.2 m in
      let log := log ++ [PreHook h s.1] in
      let '(s, err) := run (mutate i) steps s in
      match err with
      | Some e => (Some e, s, m, log)
      | None => trigger_pre hooks i s m log
      end
  end.

(** Modelled from the spec: [trigger] on the post-commit pass, with the
    single argument [op]. *)
Fixpoint trigger_post {S} (hooks : list Hook) (s : Scene) (m : Memory H)
    (log : list (Event S))
  : option Error * Scene * Memory H * list (Event S) :=
  match hooks with
  | [] => (None, s, m, log)
  | h :: hooks =>
      let '(steps, m) := post_body H h s.1 s.2 m in
      let log := log ++ [PostHook h s.1] in
      let '(s, err) := run effect steps s in
      match err with
      | Some e => (Some e, s, m, log)
      | None => trigger_post hooks s m log
      end
  end.
End Hooks.

(** [hooks.indexOf(hook)]; [None] stands for -1. *)
Definition indexOf (hooks : list Hook) (hook : Hook) : option nat :=
  fst <$> list_find (λ h, h = hook) hooks.

(** [addHook(hooks, hook)], the same in both files.  The array [hooks] is
    shared with the closure that is returned, so the result is the array
    after the push and the effect of the closure on the array as it is
    when the closure is called. *)
Definition addHook (hooks : list Hook) (hook : Hook)
  : list Hook * (list Hook → list Hook) :=
  (hooks ++ [hook],
   λ hooks, match indexOf hooks hook with
            | Some i => delete i hooks          (* hooks.splice(i, 1) *)
            | None => hooks
            end).

Definition set_prehooks (ns : Namespace) (hooks : list Hook) : Namespace :=
  {| ns_buffer := ns_buffer ns; ns_keyEncoding := ns_keyEncoding ns;
     ns_hex := ns_hex ns; prehooks := hooks; posthooks := posthooks ns |}.

Definition set_posthooks (ns : Namespace) (hooks : list Hook) : Namespace :=
  {| ns_buffer := ns_buffer ns; ns_keyEncoding := ns_keyEncoding ns;
     ns_hex := ns_hex ns; prehooks := prehooks ns; posthooks := hooks |}.

(** [space.pre(hook)] and [space.post(hook)] *)
Definition pre (ns : Namespace) (hook : Hook)
  : Namespace * (Namespace → Namespace) :=
  let '(hooks, deregister) := addHook (prehooks ns) hook in
  (set_prehooks ns hooks, λ ns, set_prehooks ns (deregister (prehooks ns))).

Definition post (ns : Namespace) (hook : Hook)
  : Namespace * (Namespace → Namespace) :=
  let '(hooks, deregister) := addHook (posthooks ns) hook in
  (set_posthooks ns hooks, λ ns, set_posthooks ns (deregister (posthooks ns))).

(* ===================================================================== *)
(** ** src/index.js: [space.batch]                                        *)
(* ===================================================================== *)

Module Index.

(** An entry of [encodedOps]. *)
Record EncodedOp : Type := mkEncodedOp {
  enc_type : Value;
  enc_key : Value;
  enc_keyEncoding : Value;
  enc_value : Value;
  enc_valueEncoding : Value;
  enc_sync : Value
}.

Section Batch.
Variable H : Hooks.
(** [op.prefix.namespace.encode(op.key, opts, op)]: the method of
    ./namespace when the namespace is a [Namespace], whatever the call
    comes to when it is not; either may throw. *)
Variable Namespace_encode : NsRef → Value → Op → result Value.
(** The answer of the store to [db.batch(encodedOps, ...)]. *)
Variable db_batch : list (option EncodedOp) → option CbError.
(** The [Bytespace] the batch is called on. *)
Variable space : Space.

(** Lines 171-185, the loop [for (i = 0, len = ops.length; i < len; i++)]
    with [remaining = len - i]; [ns] is the function-scoped [var ns]. *)
Fixpoint pre_commit (remaining i : nat) (ops : OpArray)
    (ns : option Namespace) (m : Memory H) (log : list (Event EncodedOp))
  : LoopExit * OpArray * option Namespace * Memory H
    * list (Event EncodedOp) :=
  match remaining with
  | 0 => (Done, ops, ns, m, log)
  | S remaining =>
      match ops !! i with
      | Some (Some op) =>
          let ops := write_obj (op_id op) (prepared space) ops in
          let op := prepared space op in
          match op_prefix op ≫= λ sp, instance (namespace sp) with
          | None =>
              (Returned "Unknown prefix in batch commit", ops, ns, m, log)
          | Some ns =>
              let '(err, s, m, log) :=
                match prehooks ns with
                | [] => (None, (op, ops), m, log)
                | hooks => trigger_pre H hooks i (op, ops) m log
                end in
              match err with
              | Some e => (Thrown e, s.2, Some ns, m, log)
              | None => pre_commit remaining (S i) s.2 (Some ns) m log
              end
          end
      | _ => (Thrown TypeError, ops, ns, m, log)     (* [ops[i]] is undefined *)
      end
  end.

(** Lines 189-199, [ops.map(...)]: holes stay holes.  An operation
    without a prefix object has no [namespace] to ask. *)
Fixpoint encode_ops (ns : option Namespace) (ops : OpArray)
  : list (Event EncodedOp) * result (list (option EncodedOp)) :=
  match ops with
  | [] => ([], Ok [])
  | None :: rest =>
      let '(ev, r) := encode_ops ns rest in
      (ev, e ← r; Ok (None :: e))
  | Some op :: rest =>
      match op_prefix op with
      | None => ([], Throw TypeError)
      | Some pre =>
          match Namespace_encode (namespace pre) (op_key op) op with
          | Throw e => ([], Throw e)
          | Ok key =>
              match ns with
              | None =>
                  ([KeyEncoded (namespace pre) (op_key op)], Throw TypeError)
              | Some ns' =>
                  let enc :=
                    {| enc_type := op_type op;
                       enc_key := key;
                       enc_keyEncoding := ns_keyEncoding ns';
                       enc_value := op_value op;
                       enc_valueEncoding := op_valueEncoding op;
                       enc_sync := op_sync op |} in
                  let '(ev, r) := encode_ops ns rest in
                  (KeyEncoded (namespace pre) (op_key op) :: ev,
                   e ← r; Ok (Some enc :: e))
              end
          end
      end
  end.

(** Lines 207-209, [ops.forEach(...)] with [remaining] entries to go: an
    entry that is a hole, or no longer there, when its turn comes is
    skipped. *)
Fixpoint post_each (hooks : list Hook) (remaining k : nat) (ops : OpArray)
    (m : Memory H) (log : list (Event EncodedOp))
  : option Error * list (Event EncodedOp) :=
  match remaining with
  | 0 => (None, log)
  | S remaining =>
      match ops !! k with
      | Some (Some op) =>
          let '(err, s, m, log) := trigger_post H hooks (op, ops) m log in
          match err with
          | Some e => (Some e, log)
          | None => post_each hooks remaining (S k) s.2 m log
          end
      | _ => post_each hooks remaining (S k) ops m log
      end
  end.

(** Lines 205-214: the post-commit pass uses the hooks of [var ns], for
    every operation left in the array; an exception there is caught and
    handed to the callback, and the callback is called once more. *)
Definition post_commit (ns : option Namespace) (ops : OpArray)
    (m : Memory H) : list (Event EncodedOp) :=
  let '(err, log) :=
    match ns with
    | Some ns =>
        match posthooks ns with
        | [] => (None, [])
        | hooks => post_each hooks (length ops) 0 ops m []
        end
    | None => (Some TypeError, [])
    end in
  match err with
  | Some e => log ++ [Callback (Some (Exception e)); Callback None]
  | None => log ++ [Callback None]
  end.

(** [space.batch(ops, opts, cb)], lines 156-222, called with an array.
    An exception inside [try] reaches the callback through
    [process.nextTick].  The options [opts] only travel to the store and
    to [Namespace.encode] and are left out. *)
Definition batch (ops : OpArray) : list (Event EncodedOp) :=
  let '(exit, ops, ns, m, log) :=
    pre_commit (length ops) 0 ops None (memory0 H) [] in
  match exit with
  | Returned msg => log ++ [Callback (Some (Message msg))]
  | Thrown e => log ++ [Callback (Some (Exception e))]
  | Done =>
      if bool_decide (length ops = 0) then log ++ [Callback None]
      else
        let '(ev, r) := encode_ops ns ops in
        match r with
        | Throw e => log ++ ev ++ [Callback (Some (Exception e))]
        | Ok encodedOps =>
            log ++ ev ++ [StoreBatch encodedOps] ++
            match db_batch encodedOps with
            | Some err => [Callback (Some err)]
            | None => post_commit ns ops m
            end
        end
  end.
End Batch.

End Index.

(* ===================================================================== *)
(** ** src/unnamed/part_001: [this.batch]                                 *)
(* ===================================================================== *)

Module Part001.

(** Lines 155-156: [op._initialKey = op.key] and
    [op._initialKeyEncoding = op.keyEncoding]. *)
Definition keep_initial (op : Op) : Op :=
  {| op_id := op_id op;
     op_type := op_type op; op_key := op_key op; op_value := op_value op;
     op_prefix := op_prefix op; op_keyEncoding := op_keyEncoding op;
     op_valueEncoding := op_valueEncoding op; op_sync := op_sync op;
     op_initialKey := op_key op;
     op_initialKeyEncoding := op_keyEncoding op;
     op_prefixId := op_prefixId op |}.

(** Lines 162-174: the encoded key and the key encoding are written to
    the operation, and the prefix is replaced by its index. *)
Definition encoded (key keyEncoding : Value) (prefixId : nat) (op : Op)
  : Op :=
  {| op_id := op_id op;
     op_type := op_type op; op_key := key; op_value := op_value op;
     op_prefix := None; op_keyEncoding := keyEncoding;
     op_valueEncoding := op_valueEncoding op; op_sync := op_sync op;
     op_initialKey := op_initialKey op;
     op_initialKeyEncoding := op_initialKeyEncoding op;
     op_prefixId := Some prefixId |}.

(** Lines 186-190: key, encoding and prefix are put back. *)
Definition restore (pre : option Space) (op : Op) : Op :=
  {| op_id := op_id op;
     op_type := op_type op; op_key := op_initialKey op;
     op_value := op_value op; op_prefix := pre;
     op_keyEncoding := op_initialKeyEncoding op;
     op_valueEncoding := op_valueEncoding op; op_sync := op_sync op;
     op_initialKey := op_initialKey op;
     op_initialKeyEncoding := op_initialKeyEncoding op;
     op_prefixId := op_prefixId op |}.

(** [prefixes.indexOf(pre)], by identity of the object. *)
Definition indexOf_space (prefixes : list Space) (pre : Space) : option nat :=
  fst <$> list_find (λ p, space_id p = space_id pre) prefixes.

Section Batch.
Variable H : Hooks.
Variable Namespace_encode : NsRef → Value → Op → result Value.
(** The answer of the store to [db.batch(ops, ...)]. *)
Variable db_batch : OpArray → option CbError.
Variable space : Space.

(** Lines 134-157.  The operation is an object: what is written to it
    after its hooks have run reaches it wherever it is by then. *)
Fixpoint pre_commit (remaining i : nat) (ops : OpArray)
    (ns : option Namespace) (m : Memory H) (log : list (Event Op))
  : LoopExit * OpArray * option Namespace * Memory H * list (Event Op) :=
  match remaining with
  | 0 => (Done, ops, ns, m, log)
  | S remaining =>
      match ops !! i with
      | Some (Some op) =>
          let ops := write_obj (op_id op) (prepared space) ops in
          let op := prepared space op in
          match op_prefix op ≫= λ sp, instance (namespace sp) with
          | None =>
              (Returned "Unknown prefix in batch commit", ops, ns, m, log)
          | Some ns =>
              let '(err, s, m, log) :=
                match prehooks ns with
                | [] => (None, (op, ops), m, log)
                | hooks => trigger_pre H hooks i (op, ops) m log
                end in
              match err with
              | Some e => (Thrown e, s.2, Some ns, m, log)
              | None =>
                  pre_commit remaining (S i)
                    (write_obj (op_id op) keep_initial s.2) (Some ns) m log
              end
          end
      | _ => (Thrown TypeError, ops, ns, m, log)
      end
  end.

(** Lines 160-175, [ops.forEach(...)] with [remaining] entries to go:
    every operation left in the array gets its key encoded in place. *)
Fixpoint encode_ops (ns : option Namespace) (remaining k : nat)
    (ops : OpArray) (prefixes : list Space)
  : list (Event Op) * result (OpArray * list Space) :=
  match remaining with
  | 0 => ([], Ok (ops, prefixes))
  | S remaining =>
      match ops !! k with
      | Some (Some op) =>
          match op_prefix op with
          | None => ([], Throw TypeError)
          | Some pre =>
              match Namespace_encode (namespace pre) (op_key op) op with
              | Throw e => ([], Throw e)
              | Ok key =>
                  match ns with
                  | None =>
                      ([KeyEncoded (namespace pre) (op_key op)],
                       Throw TypeError)
                  | Some ns' =>
                      let '(id, prefixes) :=
                        match indexOf_space prefixes pre with
                        | Some j => (j, prefixes)
                        | None => (length prefixes, prefixes ++ [pre])
                        end in
                      let ops :=
                        write_obj (op_id op)
                          (encoded key (ns_keyEncoding ns') id) ops in
                      let '(ev, r) :=
                        encode_ops ns remaining (S k) ops prefixes in
                      (KeyEncoded (namespace pre) (op_key op) :: ev, r)
                  end
              end
          end
      | _ => encode_ops ns remaining (S k) ops prefixes
      end
  end.

(** Lines 185-194, the post-commit pass, with [remaining] entries to
    go. *)
Fixpoint post_commit (prefixes : list Space) (remaining k : nat)
    (ops : OpArray) (m : Memory H) (log : list (Event Op))
  : option Error * list (Event Op) :=
  match remaining with
  | 0 => (None, log)
  | S remaining =>
      match ops !! k with
      | Some (Some op) =>
          let pre := op_prefixId op ≫= (prefixes !!.) in
          let ops := write_obj (op_id op) (restore pre) ops in
          let op := restore pre op in
          match pre with
          | None => (Some TypeError, log)
          | Some pre =>
              let '(err, s, m, log) :=
                match namespace pre with
                | Instance ns =>
                    match posthooks ns with
                    | [] => (None, (op, ops), m, log)
                    | hooks => trigger_post H hooks (op, ops) m log
                    end
                | Other x =>
                    let '(steps, m) := other_post H x op ops m in
                    let '(s, err) := run effect steps (op, ops) in
                    (err, s, m, log)
                end in
              match err with
              | Some e => (Some e, log)
              | None => post_commit prefixes remaining (S k) s.2 m log
              end
          end
      | _ => post_commit prefixes remaining (S k) ops m log
      end
  end.

(** [this.batch(ops, opts, cb)], lines 126-198; nothing catches an
    exception here. *)
Definition batch (ops : OpArray) : list (Event Op) :=
  let '(exit, ops, ns, m, log) :=
    pre_commit (length ops) 0 ops None (memory0 H) [] in
  match exit with
  | Returned msg => log ++ [Callback (Some (Message msg))]
  | Thrown e => log ++ [Uncaught e]
  | Done =>
      let '(ev, r) := encode_ops ns (length ops) 0 ops [] in
      match r with
      | Throw e => log ++ ev ++ [Uncaught e]
      | Ok (ops, prefixes) =>
          if bool_decide (length ops = 0) then log ++ ev ++ [Callback None]
          else
            log ++ ev ++ [StoreBatch ops] ++
            match db_batch ops with
            | Some err => [Callback (Some err)]
            | None =>
                let '(err, ev') :=
                  post_commit prefixes (length ops) 0 ops m [] in
                ev' ++ match err with
                       | None => [Callback None]
                       | Some e => [Uncaught e]
                       end
            end
      end
  end.
End Batch.

End Part001.

(* ===================================================================== *)
(** ** The common shape of the two pre-commit loops                       *)
(* ===================================================================== *)

(** The loops of index.js and of part_001 differ in one step: what is
    written to the operation once its hooks have run.  With that step as
    the parameter [finish] both are the loop below, which is what the
    lemmas on the loops are proved for. *)
Fixpoint pre_commit_with {St} (finish : Op → Op) (H : Hooks) (space : Space)
    (remaining i : nat) (ops : OpArray) (ns : option Namespace)
    (m : Memory H) (log : list (Event St))
  : LoopExit * OpArray * option Namespace * Memory H * list (Event St) :=
  match remaining with
  | 0 => (Done, ops, ns, m, log)
  | S remaining =>
      match ops !! i with
      | Some (Some op) =>
          let ops := write_obj (op_id op) (prepared space) ops in
          let op := prepared space op in
          match op_prefix op ≫= λ sp, instance (namespace sp) with
          | None =>
              (Returned "Unknown prefix in batch commit", ops, ns, m, log)
          | Some ns =>
              let '(err, s, m, log) :=
                match prehooks ns with
                | [] => (None, (op, ops), m, log)
                | hooks => trigger_pre H hooks i (op, ops) m log
                end in
              match err with
              | Some e => (Thrown e, s.2, Some ns, m, log)
              | None =>
                  pre_commit_with finish H space remaining (S i)
                    (write_obj (op_id op) finish s.2) (Some ns) m log
              end
          end
      | _ => (Thrown TypeError, ops, ns, m, log)
      end
  end.



(** The post-hooks only look: none of them throws or writes. *)
Definition observers (H : Hooks) : Prop :=
  ∀ h op ops m, (post_body H h op ops m).1 = [].


(* ===================================================================== *)
(** ** src/unnamed/part_000: [space] and the other updown hooks           *)
(* ===================================================================== *)

Module Space.
Import Part000.

(** What [next] gets from [prePut]. *)
Record PutCall : Type := mkPutCall {
  put_key : Value;
  put_value : Value;
  put_options : Options
}.

(** What [next] gets from [preDel] and from [preGet]. *)
Record KeyCall : Type := mkKeyCall {
  call_key : Value;
  call_options : Options
}.

(** [prePut(key, value, options, cb, next)], bound to the prefix. *)
Definition prePut (this : Prefix) (key value : Value) (options : Options)
  : result PutCall :=
  let options := <["keyEncoding" := VStr "binary"]> options in
  k ← encode this key;
  Ok {| put_key := k; put_value := value; put_options := options |}.

(** [preDel(key, options, cb, next)] *)
Definition preDel (this : Prefix) (key : Value) (options : Options)
  : result KeyCall :=
  let options := <["keyEncoding" := VStr "binary"]> options in
  k ← encode this key;
  Ok {| call_key := k; call_options := options |}.

(** [preGet(key, options, cb, next)] *)
Definition preGet (this : Prefix) (key : Value) (options : Options)
  : result KeyCall :=
  let options := <["keyEncoding" := VStr "binary"]> options in
  k ← encode this key;
  Ok {| call_key := k; call_options := options |}.

(** [postGet(key, options, err, value, cb, next)]: the key handed to
    [next]; the other arguments go through as they are. *)
Definition postGet (this : Prefix) (key : Value) : result Value :=
  decode this key.

(** The first argument of [preBatch]: an array of operation objects, in
    which a hole or [undefined] is [None], or something that is not an
    array (a chained batch). *)
Inductive BatchArg : Type :=
| BatchArray (array : list (option Options))
| BatchOther (v : Value).

(** What [next] gets as its first argument from [preBatch]. *)
Inductive BatchOut : Type :=
| OutArray (narray : list Options)
| OutOther (v : Value).

(** [xtend(source)] with one argument: a copy of the own properties, the
    empty object for [undefined]. *)
Definition xtend (source : option Options) : Options := default ∅ source.

(** The loop of [preBatch], lines 105-108. *)
Fixpoint encode_elements (this : Prefix) (array : list (option Options))
  : result (list Options) :=
  match array with
  | [] => Ok []
  | x :: rest =>
      let n := xtend x in
      k ← encode this (prop n "key");
      rest' ← encode_elements this rest;
      Ok (<["key" := k]> n :: rest')
  end.

(** [preBatch(array, options, cb, next)]: the array and the options
    handed to [next]. *)
Definition preBatch (this : Prefix) (array : BatchArg) (options : Options)
  : result (BatchOut * Options) :=
  let options := <["keyEncoding" := VStr "binary"]> options in
  match array with
  | BatchArray a => n ← encode_elements this a; Ok (OutArray n, options)
  | BatchOther v => Ok (OutOther v, options)
  end.

(** A database as [space] sees it: a store without a [subspace] method,
    or a subspace, which is the database it was mounted on and its
    prefix. *)
Inductive Db : Type :=
| Plain (id : nat)
| Sub (db : Db) (prefix : Prefix).

(** The second argument of [space]: a [Prefix] instance, or any other
    value. *)
Inductive NsArg : Type :=
| NsPrefix (p : Prefix)
| NsValue (v : Value).

Section Mount.
Variable bytewise_encode : list Value → bytes.

(** [space(db, namespace, options)], lines 44-85, and the [subspace]
    method it gives the result: [sub.subspace(namespace)] is
    [space(db, prefix.append(namespace))] with the [db] and the [prefix]
    of the call that made [sub]. *)
Definition space (db : Db) (namespace : NsArg) : Db :=
  match namespace with
  | NsPrefix prefix => Sub db prefix
  | NsValue v =>
      match db with
      | Sub db0 prefix0 => Sub db0 (append bytewise_encode prefix0 v)
      | Plain _ => Sub db (new_Prefix bytewise_encode [ v ])
      end
  end.

Definition subspace (sub : Db) (namespace : Value) : Db :=
  space sub (NsValue namespace).
End Mount.

(** The key a put, get or del on [db] reaches the store with: each
    subspace on the way down encodes it with its prefix. *)
Fixpoint store_key (db : Db) (key : Value) : result Value :=
  match db with
  | Plain _ => Ok key
  | Sub db0 prefix => k ← encode prefix key; store_key db0 k
  end.

(** The store at the bottom of a database. *)
Fixpoint root (db : Db) : nat :=
  match db with
  | Plain id => id
  | Sub db0 _ => root db0
  end.

End Space.

(* ===================================================================== *)
(** ** src/index.js and src/unnamed/part_001: options, [get], [put], [del] *)
(* ===================================================================== *)

Module Bytespace.

(** [merge(a, b)], which is [xtend(a, b)]: the properties of [a], then
    those of [b] on top. *)
Definition merge (a b : gmap string Value) : gmap string Value := b ∪ a.

Section Options.
(** The namespace and the options of the [Bytespace]. *)
Variable ns : Namespace.
Variable opts : gmap string Value.

(** [kOpts(initial)], [vOpts(initial)] and [kvOpts(initial)] *)
Definition kOpts (initial : gmap string Value) : gmap string Value :=
  merge initial
    (<["keyEncoding" := ns_keyEncoding ns]>
       (<["keyAsBuffer" := VBool (negb (ns_hex ns))]> ∅)).

Definition vOpts (initial : gmap string Value) : gmap string Value :=
  merge (<["valueEncoding" := Part000.prop opts "valueEncoding"]> ∅) initial.

Definition kvOpts (initial : gmap string Value) : gmap string Value :=
  vOpts (kOpts initial).

(** The options that [createReadStream], [createKeyStream] and
    [createValueStream] hand to [readStream]. *)
Definition readStream_options (o : gmap string Value) : gmap string Value :=
  merge (<["keys" := VBool true]> (<["values" := VBool true]> ∅)) (vOpts o).

Definition keyStream_options (o : gmap string Value) : gmap string Value :=
  merge (vOpts o) (<["keys" := VBool true]> (<["values" := VBool false]> ∅)).

Definition valueStream_options (o : gmap string Value) : gmap string Value :=
  merge (vOpts o) (<["keys" := VBool false]> (<["values" := VBool true]> ∅)).
End Options.

(** An error of the store as [get] looks at it: whether [err.notFound]
    is truthy, and the text [String(err)] that the pattern is tried on. *)
Record DbError : Type := mkDbError {
  err_notFound : bool;
  err_text : string
}.

(** The ASCII letters in lower case, the other bytes as they are. *)
Definition lower (a : ascii) : ascii :=
  let n := nat_of_ascii a in
  if (65 <=? n) && (n <=? 90) then ascii_of_nat (n + 32) else a.

Fixpoint starts_with_ci (pattern s : string) : bool :=
  match pattern, s with
  | EmptyString, _ => true
  | String _ _, EmptyString => false
  | String p pattern', String c s' =>
      bool_decide (lower p = lower c) && starts_with_ci pattern' s'
  end.

Fixpoint search_ci (pattern s : string) : bool :=
  starts_with_ci pattern s
  || match s with
     | EmptyString => false
     | String _ s' => search_ci pattern s'
     end.

(** What [/pattern/i] finds for a pattern of plain characters: a piece
    of the text that is the pattern up to the case of ASCII letters. *)
Definition matches_ci (pattern s : string) : Prop :=
  ∃ before mid after,
    s = before +:+ mid +:+ after
    ∧ lower <$> list_ascii_of_string mid
      = lower <$> list_ascii_of_string pattern.

(** [NOT_FOUND.test(err)] with [NOT_FOUND = /notfound/i] *)
Definition NOT_FOUND_test (err : DbError) : bool :=
  search_ci "notfound" (err_text err).

(** The error the callback of [get] is called with. *)
Inductive GetError : Type :=
| NotFoundError (message : string) (cause : DbError)
| StoreFailure (err : DbError)
| Raised (e : Error).

(** What one call of [get] does: the call of [db.get], if it is made, and
    the arguments of the callback. *)
Record GetRun : Type := mkGetRun {
  get_store_call : option (Value * gmap string Value);
  get_error : option GetError;
  get_value : Value
}.

Section Get.
Variable ns : Namespace.
Variable space_options : gmap string Value.
(** [Namespace.prototype.encode(key, opts)], from ./namespace; it may
    throw. *)
Variable Namespace_encode : Namespace → Value → gmap string Value
                            → result Value.
(** The answer of the store: the error and the value its callback is
    called with. *)
Variable db_get : Value → gmap string Value → option DbError * Value.

(** [space.get(k, opts, cb)] of index.js, lines 115-132, with the options
    as [getOptions] returns them. *)
Definition get (k : Value) (opts : gmap string Value) : GetRun :=
  match Namespace_encode ns k opts with
  | Throw e =>
      {| get_store_call := None; get_error := Some (Raised e);
         get_value := VUndefined |}
  | Ok key =>
      let o := kvOpts ns space_options opts in
      let '(err, v) := db_get key o in
      let err' :=
        match err with
        | Some e =>
            if err_notFound e || NOT_FOUND_test e
            then Some (NotFoundError "Key not found in database" e)
            else Some (StoreFailure e)
        | None => None
        end in
      {| get_store_call := Some (key, o); get_error := err';
         get_value := v |}
  end.
End Get.

Section Writes.
Variable H : Hooks.
Variable Namespace_encode : NsRef → Value → Op → result Value.
Variable db_batch : list (option Index.EncodedOp) → option CbError.
Variable space : Space.

(** [{ type: type, key: k, value: v }], a new object. *)
Definition write_op (type : string) (k v : Value) : Op :=
  {| op_id := 0;
     op_type := VStr type; op_key := k; op_value := v; op_prefix := None;
     op_keyEncoding := VUndefined; op_valueEncoding := VUndefined;
     op_sync := VUndefined; op_initialKey := VUndefined;
     op_initialKeyEncoding := VUndefined; op_prefixId := None |}.

(** [space.del(k, opts, cb)] and [space.put(k, v, opts, cb)] of index.js,
    lines 146-154: both go through [space.batch]. *)
Definition del (k : Value) : list (Event Index.EncodedOp) :=
  Index.batch H Namespace_encode db_batch space
    [ Some (write_op "del" k VUndefined) ].

Definition put (k v : Value) : list (Event Index.EncodedOp) :=
  Index.batch H Namespace_encode db_batch space
    [ Some (write_op "put" k v) ].
End Writes.

End Bytespace.

(** More of what a trace shows. *)
Definition pre_hooked {S} (tr : list (Event S)) : list (Hook * Op) :=
  omap (λ e, match e with PreHook h op => Some (h, op) | _ => None end) tr.


Definition is_KeyEncoded {S} (e : Event S) : Prop :=
  match e with KeyEncoded _ _ => True | _ => False end.

Definition is_PostHook {S} (e : Event S) : Prop :=
  match e with PostHook _ _ => True | _ => False end.

Definition is_final {S} (e : Event S) : Prop :=
  match e with Callback _ | Uncaught _ => True | _ => False end.

(* ===================================================================== *)
(** ** Sample objects, used to run the definitions                        *)
(* ===================================================================== *)

(** A component encoding to run the definitions with: a string is a tag
    byte, its bytes and a closing zero byte; any other value is a tag byte
    alone. *)
Definition sample_component (v : Value) : bytes :=
  match v with
  | VStr s => x70 :: list_byte_of_string s ++ [ x00 ]
  | VUndefined => [ xf0 ]
  | VNull => [ x10 ]
  | VBool false => [ x20 ]
  | VBool true => [ x21 ]
  | VNum _ => [ x42 ]
  | VBuf _ => [ x60 ]
  | VArr _ => [ xa0 ]
  end.

(** Two path encodings made of it: the components one after the other,
    and the same between an opening byte and a closing zero byte, which
    is how bytewise-core writes an array. *)
Definition sample_codec (path : list Value) : bytes :=
  concat (sample_component <$> path).

Definition framed_codec (path : list Value) : bytes :=
  [ xa0 ] ++ concat (sample_component <$> path) ++ [ x00 ].

(** The root namespace ["a"]. *)
Definition example_prefix : Part000.Prefix :=
  Part000.new_Prefix sample_codec [ VStr "a" ].

(** A namespace with the pre-hook [1] and the post-hook [2], the
    [Bytespace] on it, and an object that is no [Bytespace]. *)
Definition sample_namespace : Namespace :=
  {| ns_buffer := [ x70; x61; x00 ]; ns_keyEncoding := VStr "binary";
     ns_hex := false; prehooks := [ 1 ]; posthooks := [ 2 ] |}.

Definition sample_space : Space :=
  {| space_id := 0; namespace := Instance sample_namespace;
     space_options := None |}.


(** [{ type: 'put', key: key, value: 'v', prefix: prefix }]; the sample
    operations with different keys are different objects. *)
Definition sample_put (key : string) (prefix : option Space) : Op :=
  {| op_id := Pos.to_nat (countable.encode key);
     op_type := VStr "put"; op_key := VStr key; op_value := VStr "v";
     op_prefix := prefix; op_keyEncoding := VUndefined;
     op_valueEncoding := VUndefined; op_sync := VUndefined;
     op_initialKey := VUndefined; op_initialKeyEncoding := VUndefined;
     op_prefixId := None |}.

(** Hooks that keep nothing between calls: the pre-hooks do what [body]
    says, the post-hooks do [after]; an object that is no [Namespace] has
    no [posthooks], so that reading their length throws. *)
Definition hooks_of (body : Hook → Op → OpArray → list Mutation)
    (after : Hook → Op → list Effect) : Hooks :=
  {| Memory := unit; memory0 := ();
     pre_body := λ h op ops m, (body h op ops, m);
     post_body := λ h op ops m, (after h op, m);
     other_post := λ x op ops m, ([ Raise TypeError ], m) |}.

(** The pre-hook [1] adds an operation that names no prefix:
    [function (op, add) { add({ type: 'put', key: 'x', value: 'v' }) }]. *)
Definition inject_x : Hooks :=
  hooks_of (λ h op ops, [ AddOp (sample_put "x" None) ]) (λ h op, []).

(** The pre-hook [1] cancels the operation with the key ["k"]:
    [function (op, add) { if (op.key === 'k') add(false) }]. *)
Definition cancel_k : Hooks :=
  hooks_of (λ h op ops, match op_key op with
                        | VStr "k" => [ AddFalse ]
                        | _ => []
                        end)
           (λ h op, []).



(** A namespace encoding of keys in the manner of [Prefix.encode]; an
    object that is no [Namespace] has no [encode]. *)
Definition sample_encode (ns : NsRef) (key : Value) (op : Op)
  : result Value :=
  match ns, key with
  | Instance ns, VStr s => Ok (VBuf (ns_buffer ns ++ list_byte_of_string s))
  | Instance ns, VBuf b => Ok (VBuf (ns_buffer ns ++ b))
  | _, _ => Throw TypeError
  end.

(** A store that accepts every batch. *)
Definition store_ok {S} (ops : list (option S)) : option CbError := None.

(** Range options in the [start]/[end] style, and the same with a [gt]
    on top. *)
Definition sample_range : Part000.Options :=
  <["start" := VStr "a"]> (<["end" := VBuf [ x62 ]]> ∅).

Definition sample_mixed : Part000.Options :=
  <["gt" := VStr "b"]> sample_range.

(* ===================================================================== *)
(** * Properties                                                          *)
(* ===================================================================== *)

(** ** Buffers and the byte order *)

Lemma bind_Ok {A B} (m : result A) (f : A → result B) b :
  m ≫= f = Ok b ↔ ∃ a, m = Ok a ∧ f a = Ok b.
Proof.
  destruct m as [a|e]; simpl; split.
  - intros H; exists a; done.
  - intros (a' & [= ->] & H); done.
  - done.
  - intros (a' & [=] & _).
Qed.

(** Whatever lies between two keys of a prefix block is in the block. *)
Lemma between_prefixed (p lo hi key : bytes) :
  bytes_le (p ++ lo) key = true →
  bytes_le key (p ++ hi) = true →
  p `prefix_of` key.
Proof.
  revert key; induction p as [|x p IH]; intros key Hlo Hhi.
  - apply prefix_nil.
  - destruct key as [|y key]; simpl in *; [done|].
    destruct (N.ltb_spec (Byte.to_N x) (Byte.to_N y)) as [Hxy|Hxy];
      destruct (N.ltb_spec (Byte.to_N y) (Byte.to_N x)) as [Hyx|Hyx];
      try done; try lia.
    assert (x = y) as <-.
    { assert (Byte.to_N x = Byte.to_N y) as E by lia.
      apply (f_equal Byte.of_N) in E. rewrite !Byte.of_to_N in E.
      by injection E. }
    apply prefix_cons, IH; done.
Qed.

Lemma bytes_lt_le a b : bytes_lt a b = true → bytes_le a b = true.
Proof.
  unfold bytes_lt. revert b; induction a as [|x a IH]; intros [|y b]; simpl;
    try done.
  destruct (N.ltb_spec (Byte.to_N x) (Byte.to_N y));
    destruct (N.ltb_spec (Byte.to_N y) (Byte.to_N x)); try done; try lia.
  apply IH.
Qed.

Lemma bytes_le_app_l (p a b : bytes) :
  bytes_le (p ++ a) (p ++ b) = bytes_le a b.
Proof.
  induction p as [|x p IH]; simpl; [done|]. by rewrite N.ltb_irrefl.
Qed.

(** ** [Prefix]: contains, decode, encode *)

Import Part000.

Lemma contains_buffer (N : Prefix) (k : bytes) :
  contains N (VBuf k) = Ok (bool_decide (buffer N `prefix_of` k)).
Proof.
  unfold contains. f_equal. apply bool_decide_ext. split.
  - intros H. exists (drop (length (buffer N)) k).
    rewrite H at 1. by rewrite take_drop.
  - intros [rest ->]. by rewrite take_app_length.
Qed.

Lemma encode_key_bytes (N : Prefix) (key : Value) (b : bytes) :
  key_bytes key = Some b → encode N key = Ok (VBuf (buffer N ++ b)).
Proof.
  destruct key; simpl; intros [= <-]; unfold encode; simpl;
    by rewrite app_nil_r.
Qed.

Lemma encode_Ok_inv (N : Prefix) (key v : Value) :
  encode N key = Ok v →
  ∃ b, key_bytes key = Some b ∧ v = VBuf (buffer N ++ b).
Proof.
  destruct key; unfold encode; simpl; try done;
    rewrite app_nil_r; intros [= <-]; eauto.
Qed.

Lemma decode_prefixed (N : Prefix) (rest : bytes) :
  decode N (VBuf (buffer N ++ rest)) = Ok (VBuf rest).
Proof.
  unfold decode. rewrite contains_buffer. simpl.
  rewrite bool_decide_eq_true_2 by apply prefix_app_r, reflexivity.
  simpl. by rewrite drop_app_length.
Qed.




(** C10: [contains] asserts that the key is a buffer, so for every key
    that is not a buffer [contains] throws an assertion failure and so
    does [decode], which calls it first; on a buffer both return. *)
Theorem contains_non_buffer_throws (N : Prefix) (key : Value) :
  (isBuffer key = false →
   contains N key = Throw AssertionError ∧
   decode N key = Throw AssertionError) ∧
  (isBuffer key = true → is_Ok (contains N key) ∧ is_Ok (decode N key)).
Proof.
  split.
  - by destruct key.
  - destruct key as [| | | | |k|]; try done. intros _.
    split; [by eexists|]. unfold decode. simpl.
    destruct (bool_decide _); by eexists.
Qed.

Lemma contains_non_buffer_throws_witness :
  isBuffer (VStr "k") = false
  ∧ contains example_prefix (VStr "k") = Throw AssertionError
  ∧ decode example_prefix (VStr "k") = Throw AssertionError.
Proof.
  split; [reflexivity|].
  apply (contains_non_buffer_throws example_prefix (VStr "k")). reflexivity.
Defined.

(** ** The range translator *)

Lemma has_key_true (o : Options) k : has_key o k = true ↔ is_Some (o !! k).
Proof. unfold has_key. apply bool_decide_eq_true. Qed.

Lemma has_key_false (o : Options) k : has_key o k = false ↔ o !! k = None.
Proof.
  unfold has_key. rewrite bool_decide_eq_false.
  symmetry. apply eq_None_not_Some.
Qed.

Lemma has_key_insert_ne (o : Options) k k' v :
  k ≠ k' → has_key (<[k := v]> o) k' = has_key o k'.
Proof. intros. unfold has_key. by rewrite lookup_insert_ne. Qed.

Lemma prop_insert_ne (o : Options) k k' v :
  k ≠ k' → prop (<[k := v]> o) k' = prop o k'.
Proof. intros. unfold prop. by rewrite lookup_insert_ne. Qed.

Lemma prop_Some (o : Options) k v : o !! k = Some v → prop o k = v.
Proof. unfold prop. by intros ->. Qed.

Lemma agrees_keyAsBuffer (o : Options) v :
  agrees (has_of o) (<["keyAsBuffer" := v]> o).
Proof. unfold agrees. by rewrite !has_key_insert_ne. Qed.

(** Lines 152-170 keep the flags and the options in step. *)
Lemma translate_agrees has (o : Options) has' o' :
  agrees has o →
  translate_start_end has o = (has', o') → agrees has' o'.
Proof.
  intros (Hgt & Hgte & Hlt & Hlte). unfold translate_start_end.
  destruct (has_start has || has_end has); [|by intros [= <- <-]].
  destruct (has_gt has || has_lt has || has_gte has || has_lte has);
    [by intros [= <- <-]|].
  intros [= <- <-]. unfold agrees, has_key in *; simpl.
  rewrite Hgt, Hlt.
  destruct (truthy (prop o "reverse")); simpl; repeat split.
  all: first
    [ apply bool_decide_ext;
      by rewrite !lookup_delete_ne, !lookup_insert_ne
    | symmetry; apply bool_decide_eq_true; simplify_map_eq; eauto ].
Qed.

Lemma resolve_lower_spec (N : Prefix) has (o o' : Options) :
  resolve_lower N has o = Ok o' →
  (∀ k, k ≠ "gt" → k ≠ "gte" → o' !! k = o !! k) ∧
  (if has_gt has then
     ∃ b, key_bytes (prop o "gt") = Some b ∧
          o' !! "gt" = Some (VBuf (buffer N ++ b)) ∧ o' !! "gte" = None
   else if has_gte has then
     ∃ b, key_bytes (prop o "gte") = Some b ∧
          o' !! "gte" = Some (VBuf (buffer N ++ b)) ∧ o' !! "gt" = o !! "gt"
   else
     o' !! "gt" = Some (VBuf (buffer N ++ [])) ∧ o' !! "gte" = o !! "gte").
Proof.
  unfold resolve_lower.
  destruct (has_gt has); [|destruct (has_gte has)];
    intros (v & Hv & [= <-])%bind_Ok;
    apply encode_Ok_inv in Hv as (b & Hb & ->);
    (split; [intros; by simplify_map_eq|]).
  - exists b. by simplify_map_eq.
  - exists b. by simplify_map_eq.
  - injection Hb as <-. by simplify_map_eq.
Qed.

Lemma resolve_upper_spec (N : Prefix) has (o o' : Options) :
  resolve_upper N has o = Ok o' →
  (∀ k, k ≠ "lt" → k ≠ "lte" → o' !! k = o !! k) ∧
  (if has_lt has then
     ∃ b, key_bytes (prop o "lt") = Some b ∧
          o' !! "lt" = Some (VBuf (buffer N ++ b)) ∧ o' !! "lte" = None
   else if has_lte has then
     ∃ b, key_bytes (prop o "lte") = Some b ∧
          o' !! "lte" = Some (VBuf (buffer N ++ b)) ∧ o' !! "lt" = o !! "lt"
   else
     o' !! "lt" = Some (VBuf (buffer N ++ [ xff ])) ∧
     o' !! "lte" = o !! "lte").
Proof.
  unfold resolve_upper.
  destruct (has_lt has); [|destruct (has_lte has)];
    intros (v & Hv & [= <-])%bind_Ok;
    apply encode_Ok_inv in Hv as (b & Hb & ->);
    (split; [intros; by simplify_map_eq|]).
  - exists b. by simplify_map_eq.
  - exists b. by simplify_map_eq.
  - injection Hb as <-. by simplify_map_eq.
Qed.

(** [preIterator], step by step. *)
Lemma preIterator_Ok_inv (N : Prefix) (o : Options) r :
  preIterator N o = Ok r →
  ∃ has o2 o3,
    translate_start_end (has_of o) (<["keyAsBuffer" := VBool true]> o)
      = (has, o2) ∧
    resolve_lower N has o2 = Ok o3 ∧
    resolve_upper N has o3 = Ok (options r) ∧
    keyAsBuffer r = prop o "keyAsBuffer".
Proof.
  unfold preIterator.
  replace (has_of (<["keyAsBuffer" := VBool true]> o)) with (has_of o)
    by (unfold has_of; by rewrite !has_key_insert_ne).
  destruct (translate_start_end _ _) as [has o2].
  intros (o3 & H3 & (o4 & H4 & [= <-])%bind_Ok)%bind_Ok.
  exists has, o2, o3. done.
Qed.

Lemma resolve_lower_error (N : Prefix) has (o : Options) e :
  resolve_lower N has o = Throw e → e = TypeError.
Proof.
  unfold resolve_lower, encode.
  destruct (has_gt has); [|destruct (has_gte has)]; simpl;
    repeat case_match; simpl; congruence.
Qed.

Lemma resolve_upper_error (N : Prefix) has (o : Options) e :
  resolve_upper N has o = Throw e → e = TypeError.
Proof.
  unfold resolve_upper, encode.
  destruct (has_lt has); [|destruct (has_lte has)]; simpl;
    repeat case_match; simpl; congruence.
Qed.

(** Membership of a given key in a list of keys that is written out. *)
Ltac in_list := unfold rangeKeys; by repeat constructor.

Lemma translate_noop (o o1 : Options) :
  start_end_only o = false →
  translate_start_end (has_of o) o1 = (has_of o, o1).
Proof.
  unfold start_end_only, explicit_bounds, translate_start_end. simpl.
  destruct (has_key o "start" || has_key o "end"); [|done].
  destruct (has_key o "gt" || has_key o "lt" || has_key o "gte"
            || has_key o "lte"); done.
Qed.

(** The lower and the upper bound of a translated query: one of [gt] and
    [gte], one of [lt] and [lte], each under the prefix. *)
Lemma preIterator_bounds (N : Prefix) (o : Options) r :
  preIterator N o = Ok r →
  ∃ lo hi,
    (options r !! "gt" = Some (VBuf (buffer N ++ lo)) ∧
       options r !! "gte" = None
     ∨ options r !! "gte" = Some (VBuf (buffer N ++ lo)) ∧
       options r !! "gt" = None) ∧
    (options r !! "lt" = Some (VBuf (buffer N ++ hi)) ∧
       options r !! "lte" = None
     ∨ options r !! "lte" = Some (VBuf (buffer N ++ hi)) ∧
       options r !! "lt" = None).
Proof.
  intros (has & o2 & o3 & Ht & Hl & Hu & _)%preIterator_Ok_inv.
  apply translate_agrees in Ht as (Hgt & Hgte & Hlt & Hlte);
    [|apply agrees_keyAsBuffer].
  apply resolve_lower_spec in Hl as [Hl1 Hl2].
  apply resolve_upper_spec in Hu as [Hu1 Hu2].
  rewrite (Hu1 "gt"), (Hu1 "gte") by done.
  assert (∃ lo, o3 !! "gt" = Some (VBuf (buffer N ++ lo)) ∧ o3 !! "gte" = None
              ∨ o3 !! "gte" = Some (VBuf (buffer N ++ lo)) ∧ o3 !! "gt" = None)
    as [lo Hlo].
  { destruct (has_gt has); [|destruct (has_gte has)].
    - destruct Hl2 as (b & _ & ? & ?). eauto.
    - destruct Hl2 as (b & _ & ? & ->). symmetry in Hgt.
      apply has_key_false in Hgt. eauto.
    - destruct Hl2 as [? ->]. symmetry in Hgte.
      apply has_key_false in Hgte. eauto. }
  exists lo.
  destruct (has_lt has); [|destruct (has_lte has)].
  - destruct Hu2 as (b & _ & ? & ?). eauto.
  - destruct Hu2 as (b & _ & ? & ->). symmetry in Hlt.
    apply has_key_false in Hlt. rewrite (Hl1 "lt"), Hlt by done. eauto.
  - destruct Hu2 as [? ->]. symmetry in Hlte.
    apply has_key_false in Hlte. rewrite (Hl1 "lte"), Hlte by done. eauto.
Qed.

Lemma translate_encodable (o : Options) has o2 :
  encodable o →
  translate_start_end (has_of o) (<["keyAsBuffer" := VBool true]> o)
    = (has, o2) →
  ∀ k v, k ∈ [ "gt"; "gte"; "lt"; "lte" ] → o2 !! k = Some v →
         is_Some (key_bytes v).
Proof.
  intros Henc. unfold translate_start_end. simpl.
  assert (∀ k v, k ∈ [ "gt"; "gte"; "lt"; "lte" ] →
                 <["keyAsBuffer" := VBool true]> o !! k = Some v →
                 is_Some (key_bytes v)) as Hplain.
  { intros k v Hk. rewrite !elem_of_cons, elem_of_nil in Hk.
    destruct Hk as [-> | [-> | [-> | [-> | []]]]];
      rewrite lookup_insert_ne by done; apply Henc; in_list. }
  assert (∀ k d, k ∈ [ "start"; "end" ] →
            is_Some (key_bytes
              (if has_key o k then prop o k else VBuf d))) as Hbound.
  { intros k d Hk. destruct (has_key o k) eqn:E; [|by eexists].
    apply has_key_true in E as [v Hv].
    rewrite !elem_of_cons, elem_of_nil in Hk.
    destruct Hk as [-> | [-> | []]];
      rewrite (prop_Some _ _ _ Hv); (eapply Henc; [|exact Hv]); in_list. }
  destruct (has_key o "start" || has_key o "end"); [|by intros [= <- <-]].
  destruct (has_key o "gt" || has_key o "lt" || has_key o "gte"
            || has_key o "lte") eqn:E; [by intros [= <- <-]|].
  intros [= <- <-] k v Hk.
  pose proof (Hplain k v Hk) as Hp.
  rewrite !elem_of_cons, elem_of_nil in Hk.
  destruct (truthy _);
    destruct Hk as [-> | [-> | [-> | [-> | []]]]]; simplify_map_eq;
    try (intros; apply Hp; by simplify_map_eq).
  all: intros [= <-]; rewrite ?prop_insert_ne by done;
    unfold LOWER_BOUND, UPPER_BOUND; apply Hbound; in_list.
Qed.

Lemma resolve_lower_total (N : Prefix) has (o : Options) :
  has_gt has = has_key o "gt" → has_gte has = has_key o "gte" →
  (∀ k v, k ∈ [ "gt"; "gte" ] → o !! k = Some v → is_Some (key_bytes v)) →
  is_Ok (resolve_lower N has o).
Proof.
  intros Hgt Hgte Henc. unfold resolve_lower.
  destruct (has_gt has); [|destruct (has_gte has)].
  - symmetry in Hgt. apply has_key_true in Hgt as [v Hv].
    destruct (Henc "gt" v) as [b Hb]; [in_list | done |].
    rewrite (prop_Some _ _ _ Hv), (encode_key_bytes _ _ _ Hb). by eexists.
  - symmetry in Hgte. apply has_key_true in Hgte as [v Hv].
    destruct (Henc "gte" v) as [b Hb]; [in_list | done |].
    rewrite (prop_Some _ _ _ Hv), (encode_key_bytes _ _ _ Hb). by eexists.
  - by eexists.
Qed.

Lemma resolve_upper_total (N : Prefix) has (o : Options) :
  has_lt has = has_key o "lt" → has_lte has = has_key o "lte" →
  (∀ k v, k ∈ [ "lt"; "lte" ] → o !! k = Some v → is_Some (key_bytes v)) →
  is_Ok (resolve_upper N has o).
Proof.
  intros Hlt Hlte Henc. unfold resolve_upper.
  destruct (has_lt has); [|destruct (has_lte has)].
  - symmetry in Hlt. apply has_key_true in Hlt as [v Hv].
    destruct (Henc "lt" v) as [b Hb]; [in_list | done |].
    rewrite (prop_Some _ _ _ Hv), (encode_key_bytes _ _ _ Hb). by eexists.
  - symmetry in Hlte. apply has_key_true in Hlte as [v Hv].
    destruct (Henc "lte" v) as [b Hb]; [in_list | done |].
    rewrite (prop_Some _ _ _ Hv), (encode_key_bytes _ _ _ Hb). by eexists.
  - by eexists.
Qed.

(** The translator returns whenever the bounds are strings or buffers. *)
Lemma preIterator_total (N : Prefix) (o : Options) :
  encodable o → is_Ok (preIterator N o).
Proof.
  intros Henc. unfold preIterator.
  replace (has_of (<["keyAsBuffer" := VBool true]> o)) with (has_of o)
    by (unfold has_of; by rewrite !has_key_insert_ne).
  destruct (translate_start_end _ _) as [has o2] eqn:Ht.
  pose proof (translate_encodable _ _ _ Henc Ht) as Henc2.
  pose proof (translate_agrees _ _ _ _ (agrees_keyAsBuffer o _) Ht)
    as (Hgt & Hgte & Hlt & Hlte).
  destruct (resolve_lower_total N has o2 Hgt Hgte) as [o3 H3].
  { intros k v Hk. apply Henc2.
    rewrite !elem_of_cons, elem_of_nil in Hk.
    destruct Hk as [-> | [-> | []]]; in_list. }
  rewrite H3. simpl.
  pose proof (resolve_lower_spec _ _ _ _ H3) as [Hkeep _].
  destruct (resolve_upper_total N has o3) as [o4 H4].
  - unfold has_key. by rewrite (Hkeep "lt").
  - unfold has_key. by rewrite (Hkeep "lte").
  - intros k v Hk. rewrite !elem_of_cons, elem_of_nil in Hk.
    destruct Hk as [-> | [-> | []]]; rewrite Hkeep by done; apply Henc2;
      in_list.
  - rewrite H4. by eexists.
Qed.

Lemma bound_default (o : Options) k d :
  (if has_key o k then prop o k else d) = default d (o !! k).
Proof.
  unfold has_key, prop. by destruct (o !! k).
Qed.

Lemma explicit_bounds_false (o : Options) :
  explicit_bounds o = false →
  o !! "gt" = None ∧ o !! "lt" = None ∧ o !! "gte" = None ∧ o !! "lte" = None.
Proof.
  unfold explicit_bounds.
  intros [[[Hgt Hlt]%orb_false_iff Hgte]%orb_false_iff Hlte]%orb_false_iff.
  by rewrite <- !has_key_false.
Qed.

Lemma prop_delete_ne (o : Options) k k' :
  k ≠ k' → prop (delete k o) k' = prop o k'.
Proof. intros. unfold prop. by rewrite lookup_delete_ne. Qed.

Lemma prop_insert (o : Options) k v : prop (<[k := v]> o) k = v.
Proof. unfold prop. by simplify_map_eq. Qed.

(** [Prefix.encode] throws nothing but the TypeError of
    [Buffer.concat]. *)
Lemma encode_error (N : Prefix) (key : Value) e :
  encode N key = Throw e → e = TypeError.
Proof.
  unfold encode. simpl. repeat case_match; simpl; congruence.
Qed.

Lemma encode_not_bytes (N : Prefix) (key : Value) :
  key_bytes key = None → encode N key = Throw TypeError.
Proof. by destruct key. Qed.

(** The whole of [preIterator] on options with [start] or [end] and none
    of [gt], [gte], [lt], [lte]. *)
Lemma start_end_run (N : Prefix) (o : Options) :
  start_end_only o = true →
  let reverse := truthy (prop o "reverse") in
  let lo := default LOWER_BOUND (o !! if reverse then "end" else "start") in
  let hi := default UPPER_BOUND (o !! if reverse then "start" else "end") in
  preIterator N o
  = (l ← encode N lo; u ← encode N hi;
     Ok {| options :=
             <["lte" := u]>
               (<["gte" := l]>
                  (delete "end" (delete "start"
                     (<["lte" := hi]>
                        (<["gte" := lo]>
                           (<["keyAsBuffer" := VBool true]> o))))));
           keyAsBuffer := prop o "keyAsBuffer" |}).
Proof.
  intros Hs reverse lo hi. unfold start_end_only in Hs.
  apply andb_true_iff in Hs as [Hse Hexp%negb_true_iff].
  pose proof Hexp as Hexp'. unfold explicit_bounds in Hexp'.
  destruct (explicit_bounds_false _ Hexp) as (Hgt & Hlt & Hgte & Hlte).
  apply has_key_false in Hgt, Hlt.
  unfold preIterator.
  replace (has_of (<["keyAsBuffer" := VBool true]> o)) with (has_of o)
    by (unfold has_of; by rewrite !has_key_insert_ne).
  unfold translate_start_end. simpl. rewrite Hse, Hexp'. simpl.
  rewrite !prop_insert_ne, !bound_default by done. fold reverse.
  unfold resolve_lower, resolve_upper. simpl. rewrite Hgt, Hlt.
  subst lo hi. destruct reverse; simpl.
  all: rewrite !prop_delete_ne, prop_insert_ne, prop_insert by done.
  all: destruct (encode N _) as [l|e]; simpl; [|done].
  all: rewrite prop_insert_ne, !prop_delete_ne, prop_insert by done.
  all: by destruct (encode N _).
Qed.

(** C3, as stated, fails: a [start] or [end] that is there is taken
    whatever its value.  [{ start: undefined }] has the property [start],
    so [gte] is set to [undefined] and not to [LOWER_BOUND], and
    [Prefix.encode] throws on it; a number does the same. *)
Lemma start_end_translation_counterexample :
  (let o : Options := {[ "start" := VUndefined ]} in
   start_end_only o = true
   ∧ (translate_start_end (has_of o) o).2 !! "gte" = Some VUndefined
   ∧ preIterator example_prefix o = Throw TypeError)
  ∧ (let o : Options := {[ "end" := VNum 5 ]} in
     start_end_only o = true
     ∧ preIterator example_prefix o = Throw TypeError).
Proof. vm_compute. repeat split. Qed.

(** C3 (amended): for every option set that has the property [start] or
    [end] and none of [gt], [gte], [lt], [lte], lines 152-170 set [gte]
    to the value of [start] ([LOWER_BOUND] if there is no such property)
    and [lte] to the value of [end] ([UPPER_BOUND] if there is none) when
    [reverse] is falsy, and [gte] to the value of [end] and [lte] to that
    of [start], with the same defaults, when it is truthy, and delete
    [start] and [end].  When the two chosen bounds are strings or
    buffers, the translator returns them encoded under the prefix, as
    [gte] and [lte], with no [gt], [lt], [start] or [end]; when one of
    them is anything else, the translator throws a TypeError. *)
Theorem start_end_translation (N : Prefix) (o : Options) :
  start_end_only o = true →
  let reverse := truthy (prop o "reverse") in
  let lo := default LOWER_BOUND (o !! if reverse then "end" else "start") in
  let hi := default UPPER_BOUND (o !! if reverse then "start" else "end") in
  (let o' := (translate_start_end (has_of o) o).2 in
   o' !! "gte" = Some lo ∧ o' !! "lte" = Some hi ∧
   o' !! "start" = None ∧ o' !! "end" = None) ∧
  (∀ l u, key_bytes lo = Some l → key_bytes hi = Some u →
     ∃ r, preIterator N o = Ok r ∧
       options r !! "gte" = Some (VBuf (buffer N ++ l)) ∧
       options r !! "lte" = Some (VBuf (buffer N ++ u)) ∧
       options r !! "start" = None ∧ options r !! "end" = None ∧
       options r !! "gt" = None ∧ options r !! "lt" = None) ∧
  (key_bytes lo = None ∨ key_bytes hi = None →
   preIterator N o = Throw TypeError).
Proof.
  intros Hs reverse lo hi.
  pose proof (start_end_run N o Hs) as Hrun. cbv zeta in Hrun.
  fold reverse in Hrun. fold lo hi in Hrun.
  unfold start_end_only in Hs.
  apply andb_true_iff in Hs as [Hse Hexp%negb_true_iff].
  pose proof Hexp as Hexp'. unfold explicit_bounds in Hexp'.
  destruct (explicit_bounds_false _ Hexp) as (Hgt & Hlt & Hgte & Hlte).
  split; [|split].
  - unfold translate_start_end. simpl. rewrite Hse, Hexp'. simpl.
    rewrite !prop_insert_ne, !bound_default by done. fold reverse.
    subst lo hi. destruct reverse; simpl; by simplify_map_eq.
  - intros l u Hl Hu. rewrite Hrun.
    rewrite (encode_key_bytes _ _ _ Hl), (encode_key_bytes _ _ _ Hu). simpl.
    eexists. split; [done|]. simpl. by simplify_map_eq.
  - intros Hbad. rewrite Hrun.
    destruct (encode N lo) as [l|e] eqn:El; simpl.
    + destruct Hbad as [Hbad | Hbad].
      * rewrite (encode_not_bytes _ _ Hbad) in El. done.
      * by rewrite (encode_not_bytes _ _ Hbad).
    + by rewrite (encode_error _ _ _ El).
Qed.

Lemma start_end_translation_witness :
  start_end_only sample_range = true
  ∧ ∃ r, preIterator example_prefix sample_range = Ok r
         ∧ options r !! "gte" = Some (VBuf [ x70; x61; x00; x61 ])
         ∧ options r !! "lte" = Some (VBuf [ x70; x61; x00; x62 ]).
Proof.
  split; [reflexivity|].
  destruct (start_end_translation example_prefix sample_range)
    as (_ & Hok & _); [reflexivity|].
  destruct (Hok [ x61 ] [ x62 ]) as (r & Hr & Hgte & Hlte & _);
    [reflexivity..|].
  exists r. split; [exact Hr|]. split; [exact Hgte | exact Hlte].
Defined.

(** Every key inside a translated range lies in the namespace's block. *)
Lemma in_range_contains (N : Prefix) (o : Options) r (key : bytes) :
  preIterator N o = Ok r → in_range (options r) key →
  contains N (VBuf key) = Ok true.
Proof.
  intros (lo & hi & Hlo & Hhi)%preIterator_bounds (Hgt & Hgte & Hlt & Hlte).
  rewrite contains_buffer. f_equal. apply bool_decide_eq_true.
  apply (between_prefixed _ lo hi).
  - destruct Hlo as [[H _]|[H _]]; [apply bytes_lt_le|]; eauto.
  - destruct Hhi as [[H _]|[H _]]; [apply bytes_lt_le|]; eauto.
Qed.

(** C4: every [gt], [gte], [lt] or [lte] of the options the translator
    hands on begins with the prefix bytes of its namespace, whatever the
    caller supplied; there is a lower and an upper bound among them, so
    every key inside the translated range lies in the namespace's block.
    The translator returns whenever the caller's bounds are strings or
    buffers. *)
Theorem bounds_confined (N : Prefix) (o : Options) :
  (encodable o → is_Ok (preIterator N o)) ∧
  (∀ r, preIterator N o = Ok r →
     (∀ k v, k ∈ [ "gt"; "gte"; "lt"; "lte" ] → options r !! k = Some v →
             ∃ b, v = VBuf (buffer N ++ b)) ∧
     (is_Some (options r !! "gt") ∨ is_Some (options r !! "gte")) ∧
     (is_Some (options r !! "lt") ∨ is_Some (options r !! "lte")) ∧
     (∀ key, in_range (options r) key → contains N (VBuf key) = Ok true)).
Proof.
  split; [apply preIterator_total|].
  intros r Hr. pose proof (λ key, in_range_contains N o r key Hr) as Hblock.
  apply preIterator_bounds in Hr as (lo & hi & Hlo & Hhi). repeat split.
  - intros k v Hk Hv. rewrite !elem_of_cons, elem_of_nil in Hk.
    destruct Hk as [-> | [-> | [-> | [-> | []]]]];
      destruct Hlo as [[? ?]|[? ?]], Hhi as [[? ?]|[? ?]]; simplify_eq; eauto.
  - destruct Hlo as [[-> _]|[-> _]]; eauto.
  - destruct Hhi as [[-> _]|[-> _]]; eauto.
  - intros key. by apply Hblock.
Qed.

Lemma bounds_confined_witness :
  encodable sample_mixed
  ∧ ∃ r, preIterator example_prefix sample_mixed = Ok r
         ∧ (∀ key, in_range (options r) key →
                   contains example_prefix (VBuf key) = Ok true).
Proof.
  assert (encodable sample_mixed) as Henc.
  { intros k v Hk. unfold rangeKeys in Hk.
    rewrite !elem_of_cons, elem_of_nil in Hk.
    destruct Hk as [-> | [-> | [-> | [-> | [-> | [-> | []]]]]]];
      vm_compute; intros [= <-]; eexists; reflexivity. }
  split; [exact Henc|].
  destruct (bounds_confined example_prefix sample_mixed) as [Htotal Hbounds].
  destruct (Htotal Henc) as [r Hr].
  exists r. split; [exact Hr|].
  destruct (Hbounds r Hr) as (_ & _ & _ & Hin). exact Hin.
Defined.

Ltac bound_is_ok :=
  match goal with
  | |- True => exact I
  | |- is_Some (Some _) => by eexists
  | H : key_bytes ?v = Some _ |- is_Some (key_bytes ?v) =>
      rewrite H; by eexists
  end.

(** Without [start]/[end] rewriting, lines 172-191 run on the caller's
    options. *)
Lemma explicit_run (N : Prefix) (o : Options) :
  start_end_only o = false →
  preIterator N o
  = (o3 ← resolve_lower N (has_of o) (<["keyAsBuffer" := VBool true]> o);
     o4 ← resolve_upper N (has_of o) o3;
     Ok {| options := o4; keyAsBuffer := prop o "keyAsBuffer" |}).
Proof.
  intros Hs. unfold preIterator.
  replace (has_of (<["keyAsBuffer" := VBool true]> o)) with (has_of o)
    by (unfold has_of; by rewrite !has_key_insert_ne).
  by rewrite translate_noop.
Qed.

Lemma resolve_lower_lookup (N : Prefix) (o o1 : Options) :
  o1 !! "gt" = o !! "gt" → o1 !! "gte" = o !! "gte" →
  resolve_lower N (has_of o) o1
  = match o !! "gt", o !! "gte" with
    | Some v, _ => b ← encode N v; Ok (delete "gte" (<["gt" := b]> o1))
    | None, Some v => b ← encode N v; Ok (<["gte" := b]> o1)
    | None, None => Ok (<["gt" := VBuf (buffer N)]> o1)
    end.
Proof.
  intros Hgt Hgte. unfold resolve_lower, has_of, has_key, prop. simpl.
  rewrite Hgt, Hgte. destruct (o !! "gt"), (o !! "gte"); simpl; try done.
  unfold encode. simpl. by rewrite app_nil_r.
Qed.

Lemma resolve_upper_lookup (N : Prefix) (o o1 : Options) :
  o1 !! "lt" = o !! "lt" → o1 !! "lte" = o !! "lte" →
  resolve_upper N (has_of o) o1
  = match o !! "lt", o !! "lte" with
    | Some v, _ => b ← encode N v; Ok (delete "lte" (<["lt" := b]> o1))
    | None, Some v => b ← encode N v; Ok (<["lte" := b]> o1)
    | None, None => Ok (<["lt" := VBuf (buffer N ++ [ xff ])]> o1)
    end.
Proof.
  intros Hlt Hlte. unfold resolve_upper, has_of, has_key, prop. simpl.
  rewrite Hlt, Hlte. by destruct (o !! "lt"), (o !! "lte").
Qed.

(** The keys strictly between a prefix and the prefix followed by 0xFF. *)
Lemma default_range (p key : bytes) :
  bytes_lt p key = true ∧ bytes_lt key (p ++ [ xff ]) = true
  ↔ ∃ rest, key = p ++ rest ∧ rest ≠ [] ∧ head rest ≠ Some xff.
Proof.
  split.
  - intros [Hlo Hhi].
    assert (p `prefix_of` key) as [rest ->].
    { apply (between_prefixed p [] [ xff ]).
      - rewrite app_nil_r. by apply bytes_lt_le.
      - by apply bytes_lt_le. }
    exists rest. split; [done|].
    unfold bytes_lt in Hlo, Hhi.
    rewrite <- (app_nil_r p) in Hlo at 2.
    rewrite bytes_le_app_l in Hlo, Hhi.
    destruct rest as [|y rest]; [done|]. split; [done|].
    simpl in Hhi. intros [= ->]. by destruct rest.
  - intros (rest & -> & Hne & Hff). unfold bytes_lt.
    rewrite <- (app_nil_r p) at 2. rewrite !bytes_le_app_l.
    destruct rest as [|y rest]; [done|]. split; [done|]. simpl.
    destruct (N.ltb_spec 255 (Byte.to_N y)) as [Hy|Hy].
    { pose proof (Byte.to_N_bounded y). lia. }
    destruct (N.ltb_spec (Byte.to_N y) 255) as [Hy'|Hy']; [done|].
    exfalso. apply Hff. simpl. f_equal.
    assert (Byte.to_N y = Byte.to_N xff) as E by (simpl; lia).
    apply (f_equal Byte.of_N) in E. rewrite !Byte.of_to_N in E.
    by injection E.
Qed.

(** C6, as stated, fails.  The query without bounds is translated to the
    exclusive bounds [gt] = prefix and [lt] = prefix + 0xFF, which is not
    all of the namespace's block: the empty key and the key [ff 01] are
    written under the prefix by [encode] and [contains] has them, and
    neither lies inside the range.  Nor do the defaults hold for every
    option set without [gt] and [gte]: [{ start: 'a' }] has neither and
    gets the inclusive lower bound prefix + 'a'.  And a [gt] that is
    there need not be encoded: on [{ gt: 5 }] the translator throws. *)
Lemma bound_precedence_counterexample :
  (∃ r, preIterator example_prefix ∅ = Ok r
     ∧ encode example_prefix (VBuf [ xff; x01 ])
       = Ok (VBuf [ x70; x61; x00; xff; x01 ])
     ∧ contains example_prefix (VBuf [ x70; x61; x00; xff; x01 ]) = Ok true
     ∧ ¬ in_range (options r) [ x70; x61; x00; xff; x01 ]
     ∧ encode example_prefix (VStr "") = Ok (VBuf [ x70; x61; x00 ])
     ∧ contains example_prefix (VBuf [ x70; x61; x00 ]) = Ok true
     ∧ ¬ in_range (options r) [ x70; x61; x00 ])
  ∧ (let o : Options := {[ "start" := VStr "a" ]} in
     o !! "gt" = None ∧ o !! "gte" = None
     ∧ ∃ r, preIterator example_prefix o = Ok r
          ∧ options r !! "gt" = None
          ∧ options r !! "gte" = Some (VBuf [ x70; x61; x00; x61 ]))
  ∧ preIterator example_prefix {[ "gt" := VNum 5 ]} = Throw TypeError.
Proof.
  split; [|split].
  - eexists. split; [vm_compute; reflexivity|].
    repeat split; try reflexivity.
    + intros (_ & _ & Hlt & _).
      specialize (Hlt [ x70; x61; x00; xff ]). vm_compute in Hlt.
      by specialize (Hlt eq_refl).
    + intros (Hgt & _).
      specialize (Hgt [ x70; x61; x00 ]). vm_compute in Hgt.
      by specialize (Hgt eq_refl).
  - split; [reflexivity|]. split; [reflexivity|].
    eexists. split; [vm_compute; reflexivity|]. split; reflexivity.
  - reflexivity.
Qed.

(** C6 (amended): for every option set on which [start] and [end] are
    not rewritten (it has neither, or it has one of [gt], [gte], [lt],
    [lte] as well), the bounds are taken from the caller's properties.
    When the lower bound that is looked at ([gt] if that property is
    there, otherwise [gte] if it is) and the upper bound that is looked
    at ([lt], otherwise [lte]) are strings or buffers or not there, the
    translator returns, and: a [gt] is encoded under the prefix and [gte]
    is deleted; otherwise a [gte] is encoded under the prefix; otherwise
    [gt] is the prefix (the empty buffer under the prefix); and in the
    same way for [lt] and [lte], with prefix + 0xFF as the [lt] of the
    default.  When one of the two bounds looked at is there and is
    neither a string nor a buffer, the translator throws a TypeError.
    On an option set with none of the six range properties, the keys
    inside the translated range are the keys that have the prefix
    followed by at least one byte, the first of which is not 0xFF: all of
    the namespace's block but the bare prefix and the keys that go on
    with 0xFF. *)
Theorem bound_precedence (N : Prefix) (o : Options) :
  start_end_only o = false →
  (bound_ok (lower_given o) → bound_ok (upper_given o) →
   ∃ r, preIterator N o = Ok r ∧
     match o !! "gt", o !! "gte" with
     | Some v, _ =>
         ∃ b, key_bytes v = Some b ∧
              options r !! "gt" = Some (VBuf (buffer N ++ b)) ∧
              options r !! "gte" = None
     | None, Some v =>
         ∃ b, key_bytes v = Some b ∧
              options r !! "gte" = Some (VBuf (buffer N ++ b)) ∧
              options r !! "gt" = None
     | None, None =>
         options r !! "gt" = Some (VBuf (buffer N)) ∧
         options r !! "gte" = None
     end ∧
     match o !! "lt", o !! "lte" with
     | Some v, _ =>
         ∃ b, key_bytes v = Some b ∧
              options r !! "lt" = Some (VBuf (buffer N ++ b)) ∧
              options r !! "lte" = None
     | None, Some v =>
         ∃ b, key_bytes v = Some b ∧
              options r !! "lte" = Some (VBuf (buffer N ++ b)) ∧
              options r !! "lt" = None
     | None, None =>
         options r !! "lt" = Some (VBuf (buffer N ++ [ xff ])) ∧
         options r !! "lte" = None
     end) ∧
  (¬ (bound_ok (lower_given o) ∧ bound_ok (upper_given o)) →
   preIterator N o = Throw TypeError) ∧
  ((∀ k, k ∈ rangeKeys → o !! k = None) →
   ∃ r, preIterator N o = Ok r ∧
     ∀ key, in_range (options r) key
            ↔ ∃ rest, key = buffer N ++ rest ∧ rest ≠ []
                      ∧ head rest ≠ Some xff).
Proof.
  intros Hs. pose proof (explicit_run N o Hs) as Hrun.
  rewrite (resolve_lower_lookup N o) in Hrun
    by (by rewrite lookup_insert_ne).
  split; [|split].
  - intros Hlo Hhi. rewrite Hrun. unfold lower_given, upper_given in *.
    destruct (o !! "gt") as [vgt|] eqn:Egt;
      [|destruct (o !! "gte") as [vgte|] eqn:Egte]; simpl in Hlo.
    1,2: destruct Hlo as [b Hb]; rewrite (encode_key_bytes _ _ _ Hb).
    all: simpl; rewrite (resolve_upper_lookup N o)
           by (by simplify_map_eq).
    all: destruct (o !! "lt") as [vlt|] eqn:Elt;
           [|destruct (o !! "lte") as [vlte|] eqn:Elte]; simpl in Hhi.
    all: try match type of Hhi with
             | is_Some _ =>
                 destruct Hhi as [c Hc]; rewrite (encode_key_bytes _ _ _ Hc)
             end.
    all: simpl; eexists; split; [done|]; simpl.
    all: split; try (eexists; split; [eassumption|]); by simplify_map_eq.
  - intros Hbad. rewrite Hrun. unfold lower_given, upper_given in *.
    destruct (o !! "gt") as [vgt|] eqn:Egt;
      [|destruct (o !! "gte") as [vgte|] eqn:Egte]; simpl in Hbad.
    1: destruct (key_bytes vgt) as [b|] eqn:Hb.
    3: destruct (key_bytes vgte) as [b|] eqn:Hb.
    all: rewrite ?(encode_key_bytes _ _ _ Hb), ?(encode_not_bytes _ _ Hb);
      simpl; try done.
    all: rewrite (resolve_upper_lookup N o) by (by simplify_map_eq).
    all: destruct (o !! "lt") as [vlt|] eqn:Elt;
           [|destruct (o !! "lte") as [vlte|] eqn:Elte]; simpl in Hbad.
    all: try (exfalso; apply Hbad; split; bound_is_ok).
    all: match goal with
         | |- context [ encode _ ?v ] =>
             destruct (key_bytes v) as [c|] eqn:Hc;
               [exfalso; apply Hbad; split; bound_is_ok|]
         end.
    all: by rewrite (encode_not_bytes _ _ Hc).
  - intros Hnone. rewrite Hrun.
    rewrite (Hnone "gt"), (Hnone "gte") by in_list. simpl.
    rewrite (resolve_upper_lookup N o) by (by simplify_map_eq).
    rewrite (Hnone "lt"), (Hnone "lte") by in_list. simpl.
    eexists. split; [done|]. simpl. intros key.
    rewrite <- default_range. unfold in_range.
    pose proof (Hnone "gte"). pose proof (Hnone "lte").
    simplify_map_eq. split.
    + intros (Hgt & _ & Hlt & _). split; eauto.
    + intros [Hgt Hlt]. repeat split; intros b; try intros [= <-]; try done.
      all: rewrite Hnone by in_list; done.
Qed.

Lemma bound_precedence_witness :
  ∃ r, preIterator example_prefix ∅ = Ok r
       ∧ options r !! "gt" = Some (VBuf [ x70; x61; x00 ])
       ∧ options r !! "lt" = Some (VBuf [ x70; x61; x00; xff ])
       ∧ options r !! "gte" = None ∧ options r !! "lte" = None.
Proof.
  destruct (bound_precedence example_prefix ∅) as (Hok & _ & _);
    [reflexivity|].
  destruct Hok as (r & Hr & [Hgt Hgte] & [Hlt Hlte]); [exact I | exact I |].
  exists r. repeat split; assumption.
Defined.

(** [start] and [end] play no part in lines 172-191. *)
Lemma resolve_lower_delete (N : Prefix) has (o : Options) k :
  k ≠ "gt" → k ≠ "gte" →
  resolve_lower N has (delete k o) = delete k <$> resolve_lower N has o.
Proof.
  intros Hgt Hgte. unfold resolve_lower, prop.
  rewrite !lookup_delete_ne by done.
  destruct (has_gt has); [|destruct (has_gte has)];
    destruct (encode N _) as [v|e]; simpl; try done; f_equal.
  - rewrite (delete_delete _ k "gte"). by rewrite (delete_insert_ne _ k).
  - by rewrite delete_insert_ne.
  - by rewrite delete_insert_ne.
Qed.

Lemma resolve_upper_delete (N : Prefix) has (o : Options) k :
  k ≠ "lt" → k ≠ "lte" →
  resolve_upper N has (delete k o) = delete k <$> resolve_upper N has o.
Proof.
  intros Hlt Hlte. unfold resolve_upper, prop.
  rewrite !lookup_delete_ne by done.
  destruct (has_lt has); [|destruct (has_lte has)];
    destruct (encode N _) as [v|e]; simpl; try done; f_equal.
  - rewrite (delete_delete _ k "lte"). by rewrite (delete_insert_ne _ k).
  - by rewrite delete_insert_ne.
  - by rewrite delete_insert_ne.
Qed.

Lemma resolve_lower_ext (N : Prefix) h h' (o : Options) :
  has_gt h = has_gt h' → has_gte h = has_gte h' →
  resolve_lower N h o = resolve_lower N h' o.
Proof. unfold resolve_lower. by intros -> ->. Qed.

Lemma resolve_upper_ext (N : Prefix) h h' (o : Options) :
  has_lt h = has_lt h' → has_lte h = has_lte h' →
  resolve_upper N h o = resolve_upper N h' o.
Proof. unfold resolve_upper. by intros -> ->. Qed.

Lemma translate_skipped has (o : Options) :
  (has_start has || has_end has)
  && negb (has_gt has || has_lt has || has_gte has || has_lte has) = false →
  translate_start_end has o = (has, o).
Proof.
  unfold translate_start_end.
  destruct (has_start has || has_end has); [|done].
  by destruct (has_gt has || has_lt has || has_gte has || has_lte has).
Qed.

Lemma preIterator_mixed (N : Prefix) (o : Options) :
  mixed_bounds o = true →
  preIterator N (delete "start" (delete "end" o))
  = (λ r, {| options := delete "start" (delete "end" (options r));
             keyAsBuffer := keyAsBuffer r |}) <$> preIterator N o.
Proof.
  unfold mixed_bounds, explicit_bounds.
  intros [Hse Hexp]%andb_true_iff. unfold preIterator.
  set (o1 := <["keyAsBuffer" := VBool true]> o).
  replace (<["keyAsBuffer" := VBool true]> (delete "start" (delete "end" o)))
    with (delete "start" (delete "end" o1))
    by (unfold o1; by rewrite !delete_insert_ne).
  assert (∀ k, k ≠ "start" → k ≠ "end" → k ≠ "keyAsBuffer" →
               has_key (delete "start" (delete "end" o1)) k = has_key o k)
    as Hflag.
  { intros k ? ? ?. unfold has_key, o1.
    by rewrite !lookup_delete_ne, lookup_insert_ne. }
  rewrite (translate_skipped (has_of (delete _ _))); cycle 1.
  { simpl. unfold has_key at 1 2.
    by rewrite lookup_delete_eq, lookup_delete_ne, lookup_delete_eq. }
  rewrite (translate_skipped (has_of o1)); cycle 1.
  { simpl. unfold o1. rewrite !has_key_insert_ne by done.
    by rewrite Hexp, andb_false_r. }
  rewrite (resolve_lower_ext N _ (has_of o))
    by (simpl; by rewrite Hflag).
  rewrite (resolve_lower_ext N (has_of o1) (has_of o))
    by (simpl; unfold o1; by rewrite has_key_insert_ne).
  rewrite !resolve_lower_delete by done.
  destruct (resolve_lower N (has_of o) o1) as [o3|e]; simpl; [|done].
  rewrite (resolve_upper_ext N _ (has_of o))
    by (simpl; by rewrite Hflag).
  rewrite (resolve_upper_ext N (has_of o1) (has_of o))
    by (simpl; unfold o1; by rewrite has_key_insert_ne).
  rewrite !resolve_upper_delete by done.
  destruct (resolve_upper N (has_of o) o3) as [o4|e]; simpl; [|done].
  unfold prop. by rewrite !lookup_delete_ne.
Qed.

(** C5, as stated, fails: with [start] and [gt] together the translator
    raises nothing; it returns options in which [gt] is encoded and
    [start] and [end] are still there, as the caller gave them. *)
Lemma mixed_bounds_counterexample :
  mixed_bounds sample_mixed = true
  ∧ ∃ r, preIterator example_prefix sample_mixed = Ok r
         ∧ options r !! "gt" = Some (VBuf [ x70; x61; x00; x62 ])
         ∧ options r !! "lt" = Some (VBuf [ x70; x61; x00; xff ])
         ∧ options r !! "start" = Some (VStr "a")
         ∧ options r !! "end" = Some (VBuf [ x62 ]).
Proof.
  split; [reflexivity|].
  eexists. split; [vm_compute; reflexivity|].
  repeat split; vm_compute; reflexivity.
Qed.

(** C5 (amended): for every option set with [start] or [end] together
    with one of [gt], [gte], [lt], [lte], the translator takes the empty
    TODO branch: it behaves as on the same options without [start] and
    [end], throwing when that throws and otherwise returning the same
    bounds, and it leaves [start] and [end] in the returned options as
    they were.  When the explicit bounds are strings or buffers it
    returns, so the combination raises no error of its own. *)
Theorem mixed_bounds_start_end_ignored (N : Prefix) (o : Options) :
  mixed_bounds o = true →
  match preIterator N (delete "start" (delete "end" o)) with
  | Throw e => preIterator N o = Throw e
  | Ok r' =>
      ∃ r, preIterator N o = Ok r ∧
           delete "start" (delete "end" (options r)) = options r' ∧
           keyAsBuffer r = keyAsBuffer r' ∧
           options r !! "start" = o !! "start" ∧
           options r !! "end" = o !! "end"
  end ∧
  ((∀ k v, k ∈ [ "gt"; "gte"; "lt"; "lte" ] → o !! k = Some v →
           is_Some (key_bytes v)) →
   is_Ok (preIterator N o)).
Proof.
  intros Hmixed. pose proof (preIterator_mixed N o Hmixed) as Heq.
  assert (∀ r, preIterator N o = Ok r →
               options r !! "start" = o !! "start" ∧
               options r !! "end" = o !! "end") as Hkept.
  { intros r (has & o2 & o3 & Ht & Hl & Hu & _)%preIterator_Ok_inv.
    rewrite translate_skipped in Ht.
    - injection Ht as <- <-.
      apply resolve_lower_spec in Hl as [Hl _].
      apply resolve_upper_spec in Hu as [Hu _].
      rewrite !Hu, !Hl by done. by rewrite !lookup_insert_ne.
    - unfold mixed_bounds, explicit_bounds in Hmixed. simpl.
      apply andb_true_iff in Hmixed as [_ ->]. apply andb_false_r. }
  split.
  - rewrite Heq. destruct (preIterator N o) as [r|e]; simpl; [|done].
    exists r. destruct (Hkept r eq_refl). done.
  - intros Henc.
    destruct (preIterator_total N (delete "start" (delete "end" o)))
      as [r' Hr'].
    { intros k v Hk. unfold rangeKeys in Hk.
      rewrite !elem_of_cons, elem_of_nil in Hk.
      destruct Hk as [-> | [-> | [-> | [-> | [-> | [-> | []]]]]]];
        simplify_map_eq; try done; apply Henc; in_list. }
    rewrite Heq in Hr'. destruct (preIterator N o) as [r|e]; [|done].
    by exists r.
Qed.

Lemma mixed_bounds_start_end_ignored_witness :
  mixed_bounds sample_mixed = true
  ∧ is_Ok (preIterator example_prefix sample_mixed).
Proof.
  split; [reflexivity|].
  destruct (mixed_bounds_start_end_ignored example_prefix sample_mixed)
    as [_ Hok]; [reflexivity|].
  apply Hok. intros k v Hk. rewrite !elem_of_cons, elem_of_nil in Hk.
  destruct Hk as [-> | [-> | [-> | [-> | []]]]];
    vm_compute; intros [= <-]; eexists; reflexivity.
Defined.

(** ** Prefix containment *)

(** An array argument is spliced into the path: an empty one gives the
    parent's path back. *)
Lemma append_empty_array enc (N : Prefix) :
  path (append enc N (VArr [])) = path N.
Proof. unfold append. simpl. apply app_nil_r. Qed.

Lemma prefix_app_both (p a b : bytes) :
  (p ++ a) `prefix_of` (p ++ b) ↔ a `prefix_of` b.
Proof.
  split; [apply prefix_app_inv | apply prefix_app].
Qed.

(** C2, as stated, fails.  With a path encoding that closes the path, as
    bytewise-core does (an opening byte, the components, a zero byte),
    the prefix buffer of the namespace ["a"] is not a prefix of that of
    its child ["a", "x"].  And whatever the encoding, an array segment is
    spliced into the path: appending the empty array gives a child with
    the parent's own prefix buffer, and the distinct segments [["x"]] and
    ["x"] give two children with the same prefix buffer. *)
Lemma prefix_containment_counterexample :
  (let N := new_Prefix framed_codec [ VStr "a" ] in
   buffer N = [ xa0; x70; x61; x00; x00 ]
   ∧ buffer (append framed_codec N (VStr "x"))
     = [ xa0; x70; x61; x00; x70; x78; x00; x00 ]
   ∧ ¬ buffer N `prefix_of` buffer (append framed_codec N (VStr "x")))
  ∧ ¬ strict_prefix (buffer example_prefix)
        (buffer (append sample_codec example_prefix (VArr [])))
  ∧ VArr [ VStr "x" ] ≠ VStr "x"
  ∧ buffer (append sample_codec example_prefix (VArr [ VStr "x" ]))
    `prefix_of` buffer (append sample_codec example_prefix (VStr "x")).
Proof.
  split; [|split; [|split]].
  - split; [reflexivity|]. split; [reflexivity|].
    intros [k Hk]. vm_compute in Hk. discriminate Hk.
  - intros [_ Hne]. apply Hne. reflexivity.
  - discriminate.
  - reflexivity.
Qed.

Section PrefixContainment.
(** The path encoding, as far as section 4.1 of the specification
    describes it: a path is written component by component, between
    fixed opening and closing bytes (which the specification does not
    speak of; they may be empty), and on the supported values, of which
    there are at least two, no encoded component is a prefix of another
    one. *)
Variable bytewise_encode : list Value → bytes.
Variable frame_open frame_close : bytes.
Variable encode_component : Value → bytes.
Variable supported : Value → Prop.
Hypothesis framed : ∀ path,
  bytewise_encode path
  = frame_open ++ concat (encode_component <$> path) ++ frame_close.
Hypothesis self_delimiting : ∀ a b,
  supported a → supported b →
  encode_component a `prefix_of` encode_component b → a = b.
Hypothesis two_supported : ∃ a b, supported a ∧ supported b ∧ a ≠ b.

Lemma component_nonempty (s : Value) :
  supported s → encode_component s ≠ [].
Proof using self_delimiting two_supported.
  intros Hs Hnil. destruct two_supported as (a & b & Ha & Hb & Hab).
  apply Hab. transitivity s; [symmetry|];
    apply self_delimiting; try done; rewrite Hnil; apply prefix_nil.
Qed.

Lemma append_segment (path : list Value) (s : Value) :
  isArray s = false →
  buffer (append bytewise_encode (new_Prefix bytewise_encode path) s)
  = (frame_open ++ concat (encode_component <$> path))
    ++ encode_component s ++ frame_close.
Proof using framed.
  intros Hs. unfold append, new_Prefix. simpl.
  replace (Array_concat path s) with (path ++ [ s ]) by (by destruct s).
  rewrite framed, fmap_app, concat_app. simpl.
  by rewrite app_nil_r, <- !app_assoc.
Qed.

(** C2 (amended): for every namespace [N] and every supported segment
    [s1] that is not an array, the prefix buffer of [N.append(s1)] has
    the prefix buffer of [N] up to its closing bytes as a strict byte
    prefix, and it has all of the prefix buffer of [N] as a strict byte
    prefix exactly when the closing bytes are a prefix of what follows
    the path of [N] in the child (always, when a path is closed by no
    bytes); and for a second such segment [s2] different from [s1],
    neither child's prefix buffer is a byte prefix of the other's, no key
    is contained in both children, and no key inside a range translated
    for one child is contained in the other. *)
Theorem prefix_containment (path : list Value) (s1 s2 : Value) :
  let N := new_Prefix bytewise_encode path in
  let C1 := append bytewise_encode N s1 in
  let C2 := append bytewise_encode N s2 in
  isArray s1 = false → isArray s2 = false →
  supported s1 → supported s2 →
  strict_prefix (frame_open ++ concat (encode_component <$> path))
    (buffer C1) ∧
  (strict_prefix (buffer N) (buffer C1)
   ↔ frame_close `prefix_of` encode_component s1 ++ frame_close) ∧
  (s1 ≠ s2 →
     ¬ buffer C1 `prefix_of` buffer C2 ∧
     ¬ buffer C2 `prefix_of` buffer C1 ∧
     (∀ key, contains C1 (VBuf key) = Ok true →
             contains C2 (VBuf key) = Ok false) ∧
     (∀ o r key, preIterator C1 o = Ok r → in_range (options r) key →
                 contains C2 (VBuf key) = Ok false)).
Proof using framed self_delimiting two_supported.
  intros N C1 C2 Ha1 Ha2 Hs1 Hs2.
  set (body := frame_open ++ concat (encode_component <$> path)).
  assert (buffer C1 = body ++ encode_component s1 ++ frame_close) as E1
    by (by apply append_segment).
  assert (buffer C2 = body ++ encode_component s2 ++ frame_close) as E2
    by (by apply append_segment).
  assert (buffer N = body ++ frame_close) as EN.
  { unfold N, new_Prefix, body. simpl. by rewrite framed, app_assoc. }
  pose proof (component_nonempty s1 Hs1) as Hne1.
  split; [|split].
  - rewrite E1. split; [by apply prefix_app_r|].
    intros Heq. apply (f_equal length) in Heq.
    rewrite !length_app in Heq.
    destruct (encode_component s1); [done | simpl in Heq; lia].
  - rewrite EN, E1. unfold strict_prefix. rewrite prefix_app_both. split.
    + by intros [H _].
    + intros H. split; [done|]. intros Heq%app_inv_head.
      apply (f_equal length) in Heq. rewrite length_app in Heq.
      destruct (encode_component s1); [done | simpl in Heq; lia].
  - intros Hne.
    assert (∀ a b, supported a → supported b → a ≠ b →
                   ¬ (encode_component a ++ frame_close)
                     `prefix_of` (encode_component b ++ frame_close))
      as Hcomp.
    { intros a b Ha Hb Hab Hpre.
      assert (encode_component a `prefix_of` encode_component b ++ frame_close)
        as H1 by (etrans; [by apply prefix_app_r | exact Hpre]).
      assert (encode_component b `prefix_of` encode_component b ++ frame_close)
        as H2 by (by apply prefix_app_r).
      destruct (prefix_weak_total _ _ _ H1 H2) as [H | H].
      - by apply Hab, self_delimiting.
      - by apply Hab; symmetry; apply self_delimiting. }
    assert (¬ buffer C1 `prefix_of` buffer C2) as H12.
    { rewrite E1, E2, prefix_app_both. by apply Hcomp. }
    assert (¬ buffer C2 `prefix_of` buffer C1) as H21.
    { rewrite E1, E2, prefix_app_both. by apply Hcomp. }
    assert (∀ key, contains C1 (VBuf key) = Ok true →
                   contains C2 (VBuf key) = Ok false) as Hdisjoint.
    { intros key. rewrite !contains_buffer. intros [= H1]. f_equal.
      apply bool_decide_eq_true in H1. apply bool_decide_eq_false.
      intros H2. destruct (prefix_weak_total _ _ _ H1 H2); done. }
    repeat split; try done.
    intros o r key Hr Hin. by apply Hdisjoint, (in_range_contains C1 o r).
Qed.
End PrefixContainment.

Lemma prefix_containment_witness :
  let N := new_Prefix framed_codec [ VStr "a" ] in
  let C1 := append framed_codec N (VStr "x") in
  let C2 := append framed_codec N (VStr "y") in
  strict_prefix [ xa0; x70; x61; x00 ] (buffer C1)
  ∧ ¬ buffer C1 `prefix_of` buffer C2
  ∧ ¬ buffer C2 `prefix_of` buffer C1.
Proof.
  intros N C1 C2.
  destruct (prefix_containment framed_codec [ xa0 ] [ x00 ] sample_component
              (λ v, v = VStr "x" ∨ v = VStr "y")) with
    (path := [ VStr "a" ]) (s1 := VStr "x") (s2 := VStr "y")
    as (Hstrict & _ & Hsib).
  - reflexivity.
  - intros a b [-> | ->] [-> | ->] H; try reflexivity;
      destruct H as [k Hk]; vm_compute in Hk; discriminate Hk.
  - exists (VStr "x"), (VStr "y"). split; [by left|]. split; [by right|].
    discriminate.
  - reflexivity.
  - reflexivity.
  - by left.
  - by right.
  - destruct Hsib as (H12 & H21 & _); [discriminate|].
    split; [exact Hstrict|]. split; [exact H12 | exact H21].
Defined.

(** ** Hook registration *)

Lemma indexOf_absent (hooks : list Hook) (hook : Hook) :
  hook ∉ hooks → indexOf hooks hook = None.
Proof.
  intros Hnot. unfold indexOf.
  replace (list_find (λ h, h = hook) hooks) with (@None (nat * Hook)); [done|].
  symmetry. apply list_find_None, Forall_forall. by intros h Hh ->.
Qed.

Lemma indexOf_first (before after : list Hook) (hook : Hook) :
  hook ∉ before →
  indexOf (before ++ hook :: after) hook = Some (length before).
Proof.
  intros Hnot. unfold indexOf.
  rewrite list_find_app_r
    by (apply list_find_None, Forall_forall; by intros h Hh ->).
  simpl. by rewrite decide_True.
Qed.

(** What the closure returned by [addHook] does to the array. *)
Lemma deregister_absent (hooks cur : list Hook) (hook : Hook) :
  hook ∉ cur → (addHook hooks hook).2 cur = cur.
Proof. intros H. simpl. by rewrite indexOf_absent. Qed.

Lemma deregister_first (hooks before after : list Hook) (hook : Hook) :
  hook ∉ before →
  (addHook hooks hook).2 (before ++ hook :: after) = before ++ after.
Proof. intros H. simpl. rewrite indexOf_first by done. apply delete_middle. Qed.

(** C9, as stated, fails: the closure looks the hook up by value.  With [7]
    registered, then [8], then [7] again, the handle of the second [7]
    removes the first one, and invoked again it removes the second one
    too. *)
Lemma deregister_counterexample :
  let '(hooks1, deregister1) := addHook [] 7 in
  let '(hooks2, deregister2) := addHook hooks1 8 in
  let '(hooks3, deregister3) := addHook hooks2 7 in
  hooks3 = [ 7; 8; 7 ]
  ∧ deregister3 hooks3 = [ 8; 7 ]
  ∧ deregister3 hooks3 ≠ [ 7; 8 ]
  ∧ deregister3 (deregister3 hooks3) = [ 8 ]
  ∧ deregister3 (deregister3 hooks3) ≠ deregister3 hooks3.
Proof. vm_compute. repeat split; discriminate. Qed.

(** C9 (amended): [addHook] appends the hook, and the function it returns
    removes the first entry of the array that is the same hook, if there
    is one, and leaves every other entry in place.  So after the same hook
    has been registered twice, invoking one handle leaves one registration
    of it fewer, and invoking the same handle again removes another one. *)
Theorem deregister_first_occurrence (hooks : list Hook) (hook : Hook) :
  let '(registered, deregister) := addHook hooks hook in
  registered = hooks ++ [hook] ∧
  (∀ cur, hook ∉ cur → deregister cur = cur) ∧
  (∀ before after, hook ∉ before →
     deregister (before ++ hook :: after) = before ++ after) ∧
  (hook ∉ hooks →
     let '(twice, deregister') := addHook registered hook in
     twice = hooks ++ [hook; hook] ∧
     deregister twice = hooks ++ [hook] ∧
     deregister' twice = hooks ++ [hook] ∧
     deregister (deregister twice) = hooks).
Proof.
  pose proof (deregister_absent hooks) as Habsent.
  pose proof (deregister_first hooks) as Hfirst.
  destruct (addHook hooks hook) as [registered deregister] eqn:E.
  injection E as <- <-. simpl in Habsent, Hfirst.
  split; [done|]. split; [by intros; apply Habsent|].
  split; [by intros; apply Hfirst|].
  intros Hnot. simpl. split; [by rewrite <- app_assoc|].
  rewrite <- app_assoc. simpl.
  rewrite !indexOf_first by done. rewrite delete_middle.
  rewrite indexOf_first by done. rewrite delete_middle.
  by rewrite app_nil_r.
Qed.

Lemma deregister_first_occurrence_witness :
  (7 ∉ ([ 8 ] : list Hook))
  ∧ (addHook [ 8 ] 7).2 ([ 8 ] ++ [ 7; 7 ]) = [ 8 ] ++ [ 7 ]
  ∧ (addHook [ 8 ] 7).2 ([ 8 ] ++ [ 7 ]) = [ 8 ].
Proof.
  assert (7 ∉ ([ 8 ] : list Hook)) as Hnot.
  { rewrite elem_of_cons, elem_of_nil. intros [H | []]. discriminate H. }
  split; [exact Hnot|].
  pose proof (deregister_first_occurrence [ 8 ] 7) as H.
  destruct (addHook [ 8 ] 7) as [registered deregister].
  destruct H as (_ & _ & Hfirst & _).
  split; [exact (Hfirst [ 8 ] [ 7 ] Hnot) | exact (Hfirst [ 8 ] [] Hnot)].
Defined.

(** ** The batch commit *)

(** *** Writes to operation objects *)


Lemma write_obj_lookup x f (ops : OpArray) k :
  write_obj x f ops !! k
  = fmap (M := option) (λ o, if decide (op_id o = x) then f o else o)
      <$> ops !! k.
Proof. unfold write_obj. by rewrite list_lookup_fmap. Qed.

Lemma write_obj_hole x f (ops : OpArray) k :
  ops !! k = Some None → write_obj x f ops !! k = Some None.
Proof. intros Hk. by rewrite write_obj_lookup, Hk. Qed.

Lemma write_obj_other x f (ops : OpArray) k o :
  ops !! k = Some (Some o) → op_id o ≠ x →
  write_obj x f ops !! k = Some (Some o).
Proof.
  intros Hk Hx. rewrite write_obj_lookup, Hk. simpl. by rewrite decide_False.
Qed.

Lemma write_obj_self x f (ops : OpArray) k o :
  ops !! k = Some (Some o) → op_id o = x →
  write_obj x f ops !! k = Some (Some (f o)).
Proof.
  intros Hk Hx. rewrite write_obj_lookup, Hk. simpl. by rewrite decide_True.
Qed.



Lemma id_prepared (space : Space) (op : Op) :
  op_id (prepared space op) = op_id op.
Proof.
  unfold prepared, addEncodings. by destruct (op_prefix op ≫= space_options).
Qed.



(** *** Hooks that act through [add] alone *)










(** *** What a trace shows, piece by piece *)

Lemma store_calls_app {St} (a b : list (Event St)) :
  store_calls (a ++ b) = store_calls a ++ store_calls b.
Proof. apply omap_app. Qed.


(** The pre-hooks of one operation log nothing but pre-hook
    invocations, whatever they do. *)
Lemma trigger_pre_log {St} (H : Hooks) (hooks : list Hook) (i : nat) :
  ∀ (s : Scene) (m : Memory H) (log : list (Event St)),
    Forall is_PreHook log →
    Forall is_PreHook (trigger_pre H hooks i s m log).2.
Proof.
  induction hooks as [|h hooks IH]; intros s m log Hlog; [done|].
  simpl. destruct (pre_body H h s.1 s.2 m) as [steps m1].
  assert (Forall is_PreHook (log ++ [PreHook (S := St) h s.1])) as Hlog'.
  { apply Forall_app. split; [done|]. by apply Forall_singleton. }
  destruct (run (mutate i) steps s) as [s' [e|]]; [done|]. by apply IH.
Qed.

(** One turn of the loop at a slot that holds an operation. *)
Lemma pre_commit_with_turn {St} finish (H : Hooks) (space : Space)
    remaining i (ops : OpArray) ns m (log : list (Event St)) op :
  ops !! i = Some (Some op) →
  pre_commit_with finish H space (S remaining) i ops ns m log
  = let ops1 := write_obj (op_id op) (prepared space) ops in
    match owner space op with
    | None => (Returned "Unknown prefix in batch commit", ops1, ns, m, log)
    | Some ns1 =>
        let hooked :=
          trigger_pre H (prehooks ns1) i (prepared space op, ops1) m log in
        match hooked.1.1.1 with
        | Some e => (Thrown e, hooked.1.1.2.2, Some ns1, hooked.1.2, hooked.2)
        | None =>
            pre_commit_with finish H space remaining (S i)
              (write_obj (op_id (prepared space op)) finish hooked.1.1.2.2)
              (Some ns1) hooked.1.2 hooked.2
        end
    end.
Proof.
  intros Hop. cbn [pre_commit_with]. rewrite Hop. unfold owner. cbv zeta.
  destruct (op_prefix (prepared space op) ≫= _) as [ns1|]; [|done].
  destruct (prehooks ns1) as [|h hooks]; [done|].
  by destruct (trigger_pre H (h :: hooks) i _ m log) as [[[err s] m1] log1].
Qed.

Lemma pre_commit_with_stuck {St} finish (H : Hooks) (space : Space)
    remaining i (ops : OpArray) ns m (log : list (Event St)) :
  (∀ op, ops !! i ≠ Some (Some op)) →
  pre_commit_with finish H space (S remaining) i ops ns m log
  = (Thrown TypeError, ops, ns, m, log).
Proof.
  intros Hop. cbn [pre_commit_with].
  destruct (ops !! i) as [[op|]|]; [|done..].
  by destruct (Hop op).
Qed.

Lemma pre_commit_with_log {St} finish (H : Hooks) (space : Space) remaining :
  ∀ i (ops : OpArray) ns m (log : list (Event St)),
    Forall is_PreHook log →
    Forall is_PreHook
      (pre_commit_with finish H space remaining i ops ns m log).2.
Proof.
  induction remaining as [|remaining IH]; intros i ops ns m log Hlog; [done|].
  destruct (ops !! i) as [[op|]|] eqn:Hop;
    [|rewrite pre_commit_with_stuck; [done | by rewrite Hop] ..].
  rewrite (pre_commit_with_turn _ _ _ _ _ _ _ _ _ op Hop). cbv zeta.
  destruct (owner space op) as [ns1|]; [|done].
  pose proof (trigger_pre_log H (prehooks ns1) i
                (prepared space op,
                 write_obj (op_id op) (prepared space) ops) m log Hlog)
    as Htrig.
  destruct (trigger_pre H (prehooks ns1) i _ m log) as [[[err s] m1] log1].
  simpl in *. destruct err; [done|]. by apply IH.
Qed.


Section Loop.
Context {St : Type}.
Variable finish : Op → Op.
Variable H : Hooks.
Variable space : Space.

(** What the two [finish] steps have in common: they leave the prefix of
    the operation alone. *)
Hypothesis finish_prefix : ∀ op, op_prefix (finish op) = op_prefix op.

End Loop.






(** C8 (the code departs from it): a batch whose only operation is
    cancelled by a pre-hook.  [delete ops[i]] leaves a hole and the length
    1, so the test [!ops.length] does not fire and the store is called
    with an array that holds nothing but the hole; both files do so. *)
Theorem cancelled_batch_reaches_store :
  let ops := [ Some (sample_put "k" None) ] in
  let tr := Index.batch cancel_k sample_encode store_ok sample_space ops in
  let tr' := Part001.batch cancel_k sample_encode store_ok sample_space ops in
  (store_calls tr = [ [ None ] ] ∧ key_encodings tr = []
   ∧ post_hooked tr = [] ∧ callbacks tr = [ None ]) ∧
  (store_calls tr' = [ [ None ] ] ∧ key_encodings tr' = []
   ∧ post_hooked tr' = [] ∧ callbacks tr' = [ None ]).
Proof. vm_compute. repeat split. Qed.

(** Two operations, the first one cancelled: it is a hole in the array
    the store gets and no post-hook runs for it; the other one is stored
    and has its post-hook run. *)
Lemma cancelled_operation_absent :
  let ops := [ Some (sample_put "k" None); Some (sample_put "j" None) ] in
  let tr := Index.batch cancel_k sample_encode store_ok sample_space ops in
  let tr' := Part001.batch cancel_k sample_encode store_ok sample_space ops in
  (∃ stored, store_calls tr = [ [ None; Some stored ] ]
             ∧ Index.enc_key stored = VBuf [ x70; x61; x00; x6a ])
  ∧ (op_key <$> (snd <$> post_hooked tr)) = [ VStr "j" ]
  ∧ (∃ stored, store_calls tr' = [ [ None; Some stored ] ]
               ∧ op_key stored = VBuf [ x70; x61; x00; x6a ])
  ∧ (op_key <$> (snd <$> post_hooked tr')) = [ VStr "j" ].
Proof. vm_compute. repeat split; eexists; split; reflexivity. Qed.

(* ===================================================================== *)
(** * Further properties of the code                                      *)
(* ===================================================================== *)

(** ** [Prefix.encode], [Prefix.contains] and [Prefix.decode] *)

(** X1: [encode] throws a [TypeError] exactly on keys that are neither a
    string nor a buffer, and whatever it returns is a key that the
    namespace contains. *)
Theorem encode_outcome (N : Prefix) (key : Value) :
  (key_bytes key = None ↔ encode N key = Throw TypeError) ∧
  (∀ fullKey, encode N key = Ok fullKey → contains N fullKey = Ok true).
Proof.
  split; [split|].
  - by destruct key.
  - destruct (key_bytes key) as [b|] eqn:Hb; [|done].
    by rewrite (encode_key_bytes N key b Hb).
  - intros fullKey (b & _ & ->)%encode_Ok_inv. rewrite contains_buffer.
    f_equal. apply bool_decide_eq_true. by apply prefix_app_r.
Qed.

Lemma encode_outcome_witness :
  encode example_prefix (VStr "k") = Ok (VBuf [ x70; x61; x00; x6b ])
  ∧ contains example_prefix (VBuf [ x70; x61; x00; x6b ]) = Ok true
  ∧ encode example_prefix (VNum 7) = Throw TypeError.
Proof.
  destruct (encode_outcome example_prefix (VStr "k")) as [_ Hin].
  destruct (encode_outcome example_prefix (VNum 7)) as [[Hthrow _] _].
  split; [reflexivity|]. split; [apply Hin; reflexivity|].
  apply Hthrow. reflexivity.
Defined.

(** X2: [encode] keeps the byte order of the keys and keeps different
    keys apart: two encoded keys compare as the bytes of the keys do, and
    are equal only when those are. *)
Theorem encode_order (N : Prefix) (k1 k2 : Value) (b1 b2 e1 e2 : bytes) :
  key_bytes k1 = Some b1 → key_bytes k2 = Some b2 →
  encode N k1 = Ok (VBuf e1) → encode N k2 = Ok (VBuf e2) →
  bytes_le e1 e2 = bytes_le b1 b2 ∧ (e1 = e2 ↔ b1 = b2).
Proof.
  intros H1 H2.
  rewrite (encode_key_bytes N k1 b1 H1), (encode_key_bytes N k2 b2 H2).
  intros [= <-] [= <-]. split; [apply bytes_le_app_l|].
  split; [apply app_inv_head | by intros ->].
Qed.

Lemma encode_order_witness :
  bytes_le [ x70; x61; x00; x6a ] [ x70; x61; x00; x6b ]
    = bytes_le [ x6a ] [ x6b ]
  ∧ ([ x70; x61; x00; x6a ] = [ x70; x61; x00; x6b ] ↔ [ x6a ] = [ x6b ]).
Proof.
  apply (encode_order example_prefix (VStr "j") (VBuf [ x6b ])); reflexivity.
Defined.

(** X3: [encode] after [decode] gives a full key of the namespace back
    as it was, and puts a key from outside the namespace under the
    prefix. *)
Theorem encode_decode (N : Prefix) (fullKey : bytes) :
  (contains N (VBuf fullKey) = Ok true →
   decode N (VBuf fullKey) ≫= encode N = Ok (VBuf fullKey)) ∧
  (contains N (VBuf fullKey) = Ok false →
   decode N (VBuf fullKey) ≫= encode N = Ok (VBuf (buffer N ++ fullKey))).
Proof.
  split; intros Hc.
  - rewrite contains_buffer in Hc. injection Hc as Hc.
    apply bool_decide_eq_true in Hc as [rest ->].
    rewrite decode_prefixed. simpl.
    by rewrite (encode_key_bytes N (VBuf rest) rest).
  - unfold decode. rewrite Hc. simpl.
    by rewrite (encode_key_bytes N (VBuf fullKey) fullKey).
Qed.

Lemma encode_decode_witness :
  decode example_prefix (VBuf [ x70; x61; x00; x6b ]) ≫= encode example_prefix
    = Ok (VBuf [ x70; x61; x00; x6b ])
  ∧ decode example_prefix (VBuf [ x6b ]) ≫= encode example_prefix
    = Ok (VBuf ([ x70; x61; x00 ] ++ [ x6b ])).
Proof.
  split.
  - apply (encode_decode example_prefix [ x70; x61; x00; x6b ]). reflexivity.
  - apply (encode_decode example_prefix [ x6b ]). reflexivity.
Defined.

(** ** [postNext] *)

(** X4: [postNext] hands an error and the end of the iterator on without
    looking at the key; otherwise the key has to be a buffer, the prefix
    is taken off when the namespace contains the key, a key from outside
    stays whole, and the result is a buffer when the caller asked for
    [keyAsBuffer] and otherwise the string [toString('utf8')] makes of
    it, in which U+FFFD stands for what is not well-formed UTF-8. *)
Theorem postNext_outcome (N : Prefix) (keyAsBuffer err key : Value) :
  (truthy err = true ∨ loose_eq_null key = true →
   postNext N keyAsBuffer err key = Ok key) ∧
  (truthy err = false → loose_eq_null key = false →
   match key with
   | VBuf k =>
       let out := if bool_decide (buffer N `prefix_of` k)
                  then drop (length (buffer N)) k else k in
       postNext N keyAsBuffer err key
       = Ok (if truthy keyAsBuffer then VBuf out
             else VStr (Buffer_toString out))
   | _ => postNext N keyAsBuffer err key = Throw AssertionError
   end).
Proof.
  split.
  - unfold postNext. intros [-> | ->]; [done|]. by rewrite orb_true_r.
  - intros Herr Hkey. unfold postNext. rewrite Herr, Hkey. simpl.
    destruct key as [| | | | |k|]; try done.
    unfold decode. rewrite contains_buffer. simpl.
    by destruct (bool_decide _), (truthy keyAsBuffer).
Qed.

Lemma postNext_outcome_witness :
  postNext example_prefix VUndefined (VStr "failed") (VNum 3) = Ok (VNum 3)
  ∧ postNext example_prefix VUndefined VNull (VBuf [ x70; x61; x00; x6b ])
    = Ok (VStr "k")
  ∧ postNext example_prefix VUndefined VNull (VBuf [ x70; x61; x00; xff ])
    = Ok (VStr (string_of_list_byte [ xef; xbf; xbd ]))
  ∧ postNext example_prefix VUndefined VNull (VNum 3) = Throw AssertionError.
Proof.
  split; [|split; [|split]].
  - apply (postNext_outcome example_prefix VUndefined (VStr "failed") (VNum 3)).
    left. reflexivity.
  - apply (postNext_outcome example_prefix VUndefined VNull
             (VBuf [ x70; x61; x00; x6b ])); reflexivity.
  - apply (postNext_outcome example_prefix VUndefined VNull
             (VBuf [ x70; x61; x00; xff ])); reflexivity.
  - apply (postNext_outcome example_prefix VUndefined VNull (VNum 3));
      reflexivity.
Defined.

(** X5: what an iterator yields inside a translated range always has the
    prefix taken off: for every key within the bounds that [preIterator]
    returns, [postNext], with the [keyAsBuffer] that [preIterator]
    remembered, hands on the rest of the key after the prefix: as a
    buffer if the caller asked for buffers, otherwise as the string
    [toString('utf8')] makes of it (U+FFFD for what is not well-formed
    UTF-8). *)
Theorem iterated_key_decoded (N : Prefix) (o : Options) r (key : bytes) :
  preIterator N o = Ok r → in_range (options r) key →
  ∃ rest,
    key = buffer N ++ rest ∧
    postNext N (keyAsBuffer r) VNull (VBuf key)
    = Ok (if truthy (prop o "keyAsBuffer") then VBuf rest
          else VStr (Buffer_toString rest)).
Proof.
  intros Hr Hin. pose proof (in_range_contains N o r key Hr Hin) as Hc.
  apply preIterator_Ok_inv in Hr as (_ & _ & _ & _ & _ & _ & ->).
  rewrite contains_buffer in Hc. injection Hc as Hc.
  apply bool_decide_eq_true in Hc as [rest ->]. exists rest.
  split; [done|]. unfold postNext. simpl. rewrite decode_prefixed. simpl.
  by destruct (truthy _).
Qed.

Lemma iterated_key_decoded_witness :
  ∃ r, preIterator example_prefix sample_range = Ok r
       ∧ in_range (options r) [ x70; x61; x00; x61; x7a ]
       ∧ postNext example_prefix (keyAsBuffer r) VNull
           (VBuf [ x70; x61; x00; x61; x7a ]) = Ok (VStr "az")
       ∧ in_range (options r) [ x70; x61; x00; x61; xc3 ]
       ∧ postNext example_prefix (keyAsBuffer r) VNull
           (VBuf [ x70; x61; x00; x61; xc3 ])
         = Ok (VStr (string_of_list_byte [ x61; xef; xbf; xbd ])).
Proof.
  destruct (preIterator_total example_prefix sample_range) as [r Hr].
  { intros k v Hk. unfold rangeKeys in Hk.
    rewrite !elem_of_cons, elem_of_nil in Hk.
    destruct Hk as [-> | [-> | [-> | [-> | [-> | [-> | []]]]]]];
      vm_compute; intros [= <-]; eexists; reflexivity. }
  assert (in_range (options r) [ x70; x61; x00; x61; x7a ]) as Hin.
  { vm_compute in Hr. injection Hr as <-.
    repeat split; intros b; vm_compute; intros [= <-]; reflexivity. }
  assert (in_range (options r) [ x70; x61; x00; x61; xc3 ]) as Hin'.
  { vm_compute in Hr. injection Hr as <-.
    repeat split; intros b; vm_compute; intros [= <-]; reflexivity. }
  exists r. split; [exact Hr|]. split; [exact Hin|].
  destruct (iterated_key_decoded example_prefix sample_range r
              [ x70; x61; x00; x61; x7a ] Hr Hin) as (rest & Hrest & Hnext).
  injection Hrest as <-. split; [exact Hnext|]. split; [exact Hin'|].
  destruct (iterated_key_decoded example_prefix sample_range r
              [ x70; x61; x00; x61; xc3 ] Hr Hin') as (rest & Hrest & Hnext').
  injection Hrest as <-. exact Hnext'.
Defined.

(** ** The updown hooks for single keys and for batches *)

Import Space.

Lemma encode_unencodable (N : Prefix) (key : Value) :
  key_bytes key = None → encode N key = Throw TypeError.
Proof. by destruct key. Qed.

Lemma contains_encoded (N : Prefix) (b : bytes) :
  contains N (VBuf (buffer N ++ b)) = Ok true.
Proof.
  rewrite contains_buffer. f_equal. apply bool_decide_eq_true.
  by apply prefix_app_r.
Qed.

(** X6: [prePut], [preGet] and [preDel] send a key to the same place:
    each hands on the key encoded under the prefix, which depends on the
    bytes of the key only (a string and the buffer of its bytes are one
    key), sets [keyEncoding] to ['binary'] whatever the caller gave and
    leaves the other options alone; [postGet] of that key is the buffer
    of the caller's key.  A key that is neither string nor buffer makes
    all three throw. *)
Theorem point_hooks (N : Prefix) (key value : Value) (opts : Options) :
  (∀ b, key_bytes key = Some b →
     let stored := VBuf (buffer N ++ b) in
     let opts' := <["keyEncoding" := VStr "binary"]> opts in
     prePut N key value opts
       = Ok {| put_key := stored; put_value := value; put_options := opts' |}
     ∧ preGet N key opts = Ok {| call_key := stored; call_options := opts' |}
     ∧ preDel N key opts = Ok {| call_key := stored; call_options := opts' |}
     ∧ postGet N stored = Ok (VBuf b)) ∧
  (key_bytes key = None →
     prePut N key value opts = Throw TypeError
     ∧ preGet N key opts = Throw TypeError
     ∧ preDel N key opts = Throw TypeError).
Proof.
  split.
  - intros b Hb. unfold prePut, preGet, preDel, postGet.
    rewrite (encode_key_bytes N key b Hb). simpl.
    repeat split. apply decode_prefixed.
  - intros Hb. unfold prePut, preGet, preDel.
    by rewrite (encode_unencodable N key Hb).
Qed.

Lemma point_hooks_witness :
  (put_key <$> prePut example_prefix (VStr "k") (VStr "v") ∅)
    = Ok (VBuf ([ x70; x61; x00 ] ++ [ x6b ]))
  ∧ (call_key <$> preGet example_prefix (VBuf [ x6b ]) ∅)
    = Ok (VBuf ([ x70; x61; x00 ] ++ [ x6b ]))
  ∧ preDel example_prefix (VNum 1) ∅ = Throw TypeError.
Proof.
  destruct (point_hooks example_prefix (VStr "k") (VStr "v") ∅)
    as [Hput _].
  destruct (point_hooks example_prefix (VBuf [ x6b ]) VUndefined ∅)
    as [Hget _].
  destruct (point_hooks example_prefix (VNum 1) VUndefined ∅)
    as [_ Hbad].
  destruct (Hput [ x6b ] eq_refl) as (-> & _).
  destruct (Hget [ x6b ] eq_refl) as (_ & -> & _).
  destruct (Hbad eq_refl) as (_ & _ & ->).
  repeat split.
Defined.

Lemma encode_elements_spec (N : Prefix) (a : list (option Options)) :
  match encode_elements N a with
  | Ok n =>
      length n = length a ∧
      ∀ i x, a !! i = Some x →
        ∃ b, key_bytes (prop (xtend x) "key") = Some b ∧
             n !! i = Some (<["key" := VBuf (buffer N ++ b)]> (xtend x))
  | Throw e =>
      e = TypeError ∧
      ∃ x, x ∈ a ∧ key_bytes (prop (xtend x) "key") = None
  end.
Proof.
  induction a as [|x a IH]; simpl; [by split|].
  destruct (key_bytes (prop (xtend x) "key")) as [b|] eqn:Hb.
  - rewrite (encode_key_bytes N _ b Hb). simpl.
    destruct (encode_elements N a) as [n|e]; simpl.
    + destruct IH as [Hlen Hn]. split; [by rewrite Hlen|].
      intros [|i] y Hy; simpl in *.
      * injection Hy as <-. eauto.
      * by apply Hn.
    + destruct IH as [-> (y & Hy & Hbad)]. split; [done|].
      exists y. split; [by apply list_elem_of_further | done].
  - rewrite (encode_unencodable N _ Hb). simpl. split; [done|].
    exists x. split; [apply list_elem_of_here | done].
Qed.

(** X7: [preBatch] on an array gives [next] an array of the same length
    in which the operation at each place is a copy of the caller's with
    its key encoded under the prefix and nothing else changed; it throws
    a [TypeError], with nothing handed on, exactly when there is a place
    whose key is neither string nor buffer (a hole among them).  What is
    not an array goes through as it is.  Either way [keyEncoding] is set
    to ['binary']. *)
Theorem preBatch_outcome (N : Prefix) (opts : Options) :
  (∀ a : list (option Options),
     match preBatch N (BatchArray a) opts with
     | Ok (out, opts') =>
         opts' = <["keyEncoding" := VStr "binary"]> opts ∧
         Forall (λ x, is_Some (key_bytes (prop (xtend x) "key"))) a ∧
         ∃ n, out = OutArray n ∧ length n = length a ∧
              ∀ i x, a !! i = Some x →
                ∃ b y, key_bytes (prop (xtend x) "key") = Some b ∧
                       n !! i = Some y ∧
                       y !! "key" = Some (VBuf (buffer N ++ b)) ∧
                       contains N (VBuf (buffer N ++ b)) = Ok true ∧
                       ∀ k, k ≠ "key" → y !! k = xtend x !! k
     | Throw e =>
         e = TypeError ∧
         ∃ x, x ∈ a ∧ key_bytes (prop (xtend x) "key") = None
     end) ∧
  (∀ v, preBatch N (BatchOther v) opts
        = Ok (OutOther v, <["keyEncoding" := VStr "binary"]> opts)).
Proof.
  split; [|done]. intros a. unfold preBatch.
  pose proof (encode_elements_spec N a) as Hspec.
  destruct (encode_elements N a) as [n|e]; [|done].
  destruct Hspec as [Hlen Hn]. cbn [mbind result_bind mret result_ret].
  split; [done|]. split.
  - apply Forall_lookup. intros i x Hx.
    destruct (Hn i x Hx) as (b & -> & _). by eexists.
  - exists n. split; [done|]. split; [done|]. intros i x Hx.
    destruct (Hn i x Hx) as (b & Hb & Hy). eexists b, _.
    split; [done|]. split; [done|]. split; [by simplify_map_eq|].
    split; [apply contains_encoded|].
    intros k Hk. by rewrite lookup_insert_ne.
Qed.

Lemma preBatch_outcome_witness :
  ∃ n, preBatch example_prefix
         (BatchArray [ Some (<["key" := VStr "k"]> (<["type" := VStr "put"]> ∅)) ])
         ∅
       = Ok (OutArray n, <["keyEncoding" := VStr "binary"]> ∅)
       ∧ length n = 1.
Proof.
  destruct (preBatch_outcome example_prefix ∅) as [Harray _].
  specialize (Harray
    [ Some (<["key" := VStr "k"]> (<["type" := VStr "put"]> ∅)) ]).
  destruct (preBatch example_prefix _ ∅) as [[out opts']|e] eqn:Hrun.
  - destruct Harray as (-> & _ & n & -> & Hlen & _).
    exists n. split; [reflexivity | exact Hlen].
  - vm_compute in Hrun. discriminate Hrun.
Defined.

(** ** More on the range translator *)

Lemma translate_other has (o : Options) has' o' k :
  translate_start_end has o = (has', o') →
  k ∉ rangeKeys → o' !! k = o !! k.
Proof.
  unfold translate_start_end, rangeKeys. intros Ht Hk.
  rewrite !not_elem_of_cons in Hk.
  destruct Hk as (? & ? & ? & ? & ? & ? & _).
  destruct (has_start has || has_end has); [|by injection Ht as <- <-].
  destruct (has_gt has || has_lt has || has_gte has || has_lte has);
    [by injection Ht as <- <-|].
  injection Ht as <- <-. rewrite !lookup_delete_ne by done.
  destruct (truthy (prop o "reverse")); simpl;
    by rewrite !lookup_insert_ne.
Qed.

(** X8: [preIterator] changes nothing but the range: in the options it
    returns [keyAsBuffer] is [true], what the caller had there is kept
    for [postNext], and every property other than [keyAsBuffer] and the
    six range properties ([limit], [reverse], [keys], [values], ...) is
    the caller's. *)
Theorem preIterator_other_options (N : Prefix) (o : Options) r :
  preIterator N o = Ok r →
  options r !! "keyAsBuffer" = Some (VBool true) ∧
  keyAsBuffer r = prop o "keyAsBuffer" ∧
  ∀ k, k ∉ rangeKeys → k ≠ "keyAsBuffer" → options r !! k = o !! k.
Proof.
  intros (has & o2 & o3 & Ht & Hl & Hu & Hkab)%preIterator_Ok_inv.
  apply resolve_lower_spec in Hl as [Hl _].
  apply resolve_upper_spec in Hu as [Hu _].
  assert (∀ k, k ∉ rangeKeys → k ≠ "lt" ∧ k ≠ "lte" ∧ k ≠ "gt" ∧ k ≠ "gte")
    as Hne.
  { intros k. unfold rangeKeys. rewrite !not_elem_of_cons. tauto. }
  assert (∀ k, k ∉ rangeKeys →
               options r !! k = <["keyAsBuffer" := VBool true]> o !! k)
    as Hkeep.
  { intros k Hk. destruct (Hne k Hk) as (? & ? & ? & ?).
    rewrite Hu, Hl by done. by eapply translate_other. }
  split; [|split; [done|]].
  - rewrite Hkeep; [by rewrite lookup_insert_eq|].
    unfold rangeKeys. rewrite !not_elem_of_cons.
    repeat split; try done. apply not_elem_of_nil.
  - intros k Hk Hkab'. rewrite Hkeep by done. by rewrite lookup_insert_ne.
Qed.

Lemma preIterator_other_options_witness :
  ∃ r, preIterator example_prefix (<["limit" := VNum 5]> sample_range) = Ok r
       ∧ options r !! "limit" = Some (VNum 5)
       ∧ options r !! "keyAsBuffer" = Some (VBool true).
Proof.
  destruct (preIterator example_prefix (<["limit" := VNum 5]> sample_range))
    as [r|e] eqn:Hr; [|vm_compute in Hr; discriminate Hr].
  exists r. split; [reflexivity|].
  destruct (preIterator_other_options example_prefix _ r Hr)
    as (Hkab & _ & Hother).
  split; [|exact Hkab].
  rewrite Hother; [reflexivity| |discriminate].
  unfold rangeKeys. rewrite !not_elem_of_cons.
  repeat split; try discriminate. apply not_elem_of_nil.
Defined.

(** X9: the only way [preIterator] fails is a [TypeError] from a bound
    that is neither string nor buffer: a [gt] or an [lt] of that kind
    always makes it throw, while with a good [gt] and a good [lt] it
    returns whatever [gte], [lte], [start] and [end] hold, since these
    are then never encoded. *)
Theorem preIterator_errors (N : Prefix) (o : Options) :
  (∀ e, preIterator N o = Throw e → e = TypeError) ∧
  (∀ k v, k = "gt" ∨ k = "lt" → o !! k = Some v → key_bytes v = None →
          preIterator N o = Throw TypeError) ∧
  (∀ lo hi, (o !! "gt") ≫= key_bytes = Some lo →
            (o !! "lt") ≫= key_bytes = Some hi →
            ∃ r, preIterator N o = Ok r ∧
                 options r !! "gt" = Some (VBuf (buffer N ++ lo)) ∧
                 options r !! "lt" = Some (VBuf (buffer N ++ hi)) ∧
                 options r !! "gte" = None ∧ options r !! "lte" = None).
Proof.
  assert (∀ e, preIterator N o = Throw e → e = TypeError) as Honly.
  { intros e. unfold preIterator.
    destruct (translate_start_end _ _) as [has o2].
    destruct (resolve_lower N has o2) as [o3|e1] eqn:Hl; simpl.
    - destruct (resolve_upper N has o3) as [o4|e2] eqn:Hu; simpl; [done|].
      intros [= <-]. by eapply resolve_upper_error.
    - intros [= <-]. by eapply resolve_lower_error. }
  assert (is_Some (o !! "gt") ∨ is_Some (o !! "lt") →
          translate_start_end (has_of o) (<["keyAsBuffer" := VBool true]> o)
            = (has_of o, <["keyAsBuffer" := VBool true]> o))
    as Hskip.
  { intros Hsome. apply translate_skipped.
    simpl. destruct Hsome as [H%has_key_true | H%has_key_true];
      rewrite H; simpl; rewrite ?orb_true_r; apply andb_false_r. }
  split; [done|]. split.
  - intros k v Hk Hv Hbad.
    destruct (preIterator N o) as [r|e] eqn:Hr; [|by rewrite (Honly e)].
    exfalso.
    apply preIterator_Ok_inv in Hr as (has & o2 & o3 & Ht & Hl & Hu & _).
    rewrite Hskip in Ht by (destruct Hk as [-> | ->]; eauto).
    injection Ht as <- <-.
    apply resolve_lower_spec in Hl as [Hl1 Hl2].
    apply resolve_upper_spec in Hu as [_ Hu2]. simpl in Hl2, Hu2.
    destruct Hk as [-> | ->].
    + assert (has_key o "gt" = true) as Hg by (apply has_key_true; eauto).
      rewrite Hg in Hl2. destruct Hl2 as (b & Hb & _).
      rewrite prop_insert_ne in Hb by done.
      rewrite (prop_Some _ _ _ Hv) in Hb. congruence.
    + assert (has_key o "lt" = true) as Hg by (apply has_key_true; eauto).
      rewrite Hg in Hu2. destruct Hu2 as (b & Hb & _).
      unfold prop in Hb. rewrite (Hl1 "lt"), lookup_insert_ne, Hv in Hb
        by done.
      simpl in Hb. congruence.
  - intros lo hi Hlo Hhi.
    destruct (o !! "gt") as [vg|] eqn:Hg; [|done].
    destruct (o !! "lt") as [vl|] eqn:Hlt; [|done]. simpl in Hlo, Hhi.
    unfold preIterator.
    replace (has_of (<["keyAsBuffer" := VBool true]> o)) with (has_of o)
      by (unfold has_of; by rewrite !has_key_insert_ne).
    rewrite Hskip by eauto.
    unfold resolve_lower, resolve_upper. simpl.
    assert (has_key o "gt" = true) as -> by (apply has_key_true; eauto).
    assert (has_key o "lt" = true) as -> by (apply has_key_true; eauto).
    rewrite prop_insert_ne by done. rewrite (prop_Some _ _ _ Hg).
    rewrite (encode_key_bytes N vg lo Hlo). simpl.
    rewrite (prop_Some _ "lt" vl) by (by simplify_map_eq).
    rewrite (encode_key_bytes N vl hi Hhi). simpl.
    eexists. split; [done|]. simpl. by simplify_map_eq.
Qed.

Lemma preIterator_errors_witness :
  preIterator example_prefix (<["gt" := VNum 1]> ∅) = Throw TypeError
  ∧ is_Ok (preIterator example_prefix
             (<["gte" := VNum 1]> (<["gt" := VStr "a"]> (<["lt" := VStr "b"]> ∅)))).
Proof.
  split.
  - destruct (preIterator_errors example_prefix (<["gt" := VNum 1]> ∅))
      as (_ & Hthrow & _).
    apply (Hthrow "gt" (VNum 1)); [by left | reflexivity | reflexivity].
  - destruct (preIterator_errors example_prefix
                (<["gte" := VNum 1]> (<["gt" := VStr "a"]> (<["lt" := VStr "b"]> ∅))))
      as (_ & _ & Hok).
    destruct (Hok [ x61 ] [ x62 ]) as (r & Hr & _); [reflexivity..|].
    exists r. exact Hr.
Defined.

(** ** [space] and [subspace] *)

(** X10: subspaces of subspaces all sit directly on the store the first
    one was mounted on: after [space(db, s)] on a plain store and any
    chain of [subspace] calls, the result is mounted on that store, its
    path is the first segment followed by the others as [concat] joins
    them, and a key written through it reaches the store with that one
    prefix in front, once. *)
Theorem subspace_chain enc (id : nat) (s : Value) (segments : list Value) :
  let sub := foldl (subspace enc) (space enc (Plain id) (NsValue s)) segments in
  let prefix := new_Prefix enc (foldl Array_concat [ s ] segments) in
  sub = Sub (Plain id) prefix ∧
  root sub = id ∧
  ∀ key, store_key sub key = encode prefix key.
Proof.
  simpl.
  assert (∀ path, foldl (subspace enc) (Sub (Plain id) (new_Prefix enc path))
                    segments
                  = Sub (Plain id)
                      (new_Prefix enc (foldl Array_concat path segments)))
    as Hfold.
  { induction segments as [|v segments IH]; intros path; [done|].
    simpl. apply (IH (Array_concat path v)). }
  rewrite Hfold. split; [done|]. split; [done|].
  intros key. simpl. by destruct (encode _ key).
Qed.

(** ** The options handed to the store *)

Import Bytespace.

Lemma lookup_xtend (a b : gmap string Value) k :
  merge a b !! k = match b !! k with Some v => Some v | None => a !! k end.
Proof.
  unfold merge. rewrite lookup_union. by destruct (b !! k), (a !! k).
Qed.

Lemma vOpts_lookup (opts initial : gmap string Value) k :
  vOpts opts initial !! k
  = match initial !! k with
    | Some v => Some v
    | None => if decide (k = "valueEncoding")
              then Some (prop opts "valueEncoding") else None
    end.
Proof.
  unfold vOpts. rewrite lookup_xtend. destruct (initial !! k); [done|].
  destruct (decide (k = "valueEncoding")) as [-> | Hk].
  - by rewrite lookup_insert_eq.
  - by rewrite lookup_insert_ne.
Qed.

Lemma kOpts_lookup (ns : Namespace) (initial : gmap string Value) k :
  kOpts ns initial !! k
  = if decide (k = "keyEncoding") then Some (ns_keyEncoding ns)
    else if decide (k = "keyAsBuffer") then Some (VBool (negb (ns_hex ns)))
    else initial !! k.
Proof.
  unfold kOpts. rewrite lookup_xtend.
  destruct (decide (k = "keyEncoding")) as [-> | H1];
    [by rewrite lookup_insert_eq|].
  rewrite lookup_insert_ne by done.
  destruct (decide (k = "keyAsBuffer")) as [-> | H2];
    [by rewrite lookup_insert_eq|].
  by rewrite lookup_insert_ne, lookup_empty.
Qed.

(** X11: in the options [kvOpts] hands to the store the key encoding and
    [keyAsBuffer] are those of the namespace, whatever the caller gave;
    the value encoding is the caller's when the caller's options have
    the property, and that of the space otherwise; every other property
    is the caller's. *)
Theorem kvOpts_precedence (ns : Namespace) (opts initial : gmap string Value) :
  let o := kvOpts ns opts initial in
  o !! "keyEncoding" = Some (ns_keyEncoding ns)
  ∧ o !! "keyAsBuffer" = Some (VBool (negb (ns_hex ns)))
  ∧ o !! "valueEncoding"
    = Some (default (prop opts "valueEncoding") (initial !! "valueEncoding"))
  ∧ ∀ k, k ≠ "keyEncoding" → k ≠ "keyAsBuffer" → k ≠ "valueEncoding" →
         o !! k = initial !! k.
Proof.
  cbv zeta. unfold kvOpts. rewrite !vOpts_lookup, !kOpts_lookup.
  repeat split.
  - by destruct (initial !! "valueEncoding").
  - intros k H1 H2 H3. rewrite vOpts_lookup, kOpts_lookup.
    rewrite !decide_False by done. by destruct (initial !! k).
Qed.

Lemma kvOpts_precedence_witness :
  let o := kvOpts sample_namespace (<["valueEncoding" := VStr "json"]> ∅)
             (<["keyEncoding" := VStr "utf8"]> (<["sync" := VBool true]> ∅)) in
  o !! "keyEncoding" = Some (VStr "binary")
  ∧ o !! "valueEncoding" = Some (VStr "json")
  ∧ o !! "sync" = Some (VBool true).
Proof.
  pose proof (kvOpts_precedence sample_namespace
                (<["valueEncoding" := VStr "json"]> ∅)
                (<["keyEncoding" := VStr "utf8"]> (<["sync" := VBool true]> ∅)))
    as (H1 & _ & H3 & H4).
  split; [exact H1|]. split; [exact H3|].
  apply (H4 "sync"); discriminate.
Defined.

(** X12: the stream factories.  A key stream always asks the store for
    keys without values and a value stream for values without keys,
    whatever the caller's options say; a read stream asks for both
    unless the caller's options say otherwise.  In all three the value
    encoding is the caller's or else that of the space, and no other
    property of the caller is touched. *)
Theorem stream_options_precedence (opts o : gmap string Value) :
  (keyStream_options opts o !! "keys" = Some (VBool true)
   ∧ keyStream_options opts o !! "values" = Some (VBool false))
  ∧ (valueStream_options opts o !! "keys" = Some (VBool false)
     ∧ valueStream_options opts o !! "values" = Some (VBool true))
  ∧ (readStream_options opts o !! "keys"
       = Some (default (VBool true) (o !! "keys"))
     ∧ readStream_options opts o !! "values"
       = Some (default (VBool true) (o !! "values")))
  ∧ ∀ f, f ∈ [ keyStream_options; valueStream_options; readStream_options ] →
      f opts o !! "valueEncoding"
        = Some (default (prop opts "valueEncoding") (o !! "valueEncoding"))
      ∧ ∀ k, k ≠ "keys" → k ≠ "values" → k ≠ "valueEncoding" →
             f opts o !! k = o !! k.
Proof.
  unfold keyStream_options, valueStream_options, readStream_options.
  split; [|split; [|split]].
  - rewrite !lookup_xtend. by rewrite lookup_insert_eq, lookup_insert_ne,
      lookup_insert_eq.
  - rewrite !lookup_xtend. by rewrite lookup_insert_eq, lookup_insert_ne,
      lookup_insert_eq.
  - rewrite !lookup_xtend, !vOpts_lookup.
    rewrite lookup_insert_eq, lookup_insert_ne, lookup_insert_eq by done.
    by destruct (o !! "keys"), (o !! "values").
  - intros f Hf. rewrite !elem_of_cons, elem_of_nil in Hf.
    destruct Hf as [-> | [-> | [-> | []]]]; (split; [|intros k H1 H2 H3]);
      rewrite lookup_xtend, ?vOpts_lookup, !lookup_insert_ne, ?lookup_empty
        by done;
      try (destruct (o !! "valueEncoding"); done);
      destruct (o !! k); try done; by rewrite decide_False.
Qed.

Lemma stream_options_precedence_witness :
  let o := <["values" := VBool true]> (<["limit" := VNum 2]> ∅) in
  keyStream_options ∅ o !! "values" = Some (VBool false)
  ∧ readStream_options ∅ o !! "limit" = Some (VNum 2).
Proof.
  intros o.
  destruct (stream_options_precedence ∅ o) as ((_ & Hvalues) & _ & _ & Hother).
  split; [exact Hvalues|].
  destruct (Hother readStream_options) as [_ Hkeep].
  - apply list_elem_of_further, list_elem_of_further, list_elem_of_here.
  - apply (Hkeep "limit"); discriminate.
Defined.

(** ** [space.get] *)

Lemma starts_with_ci_spec (pattern s : string) :
  starts_with_ci pattern s = true ↔
  ∃ mid after, s = mid +:+ after
               ∧ lower <$> list_ascii_of_string mid
                 = lower <$> list_ascii_of_string pattern.
Proof.
  revert s. induction pattern as [|p pattern IH]; intros s; simpl.
  - split; [|done]. intros _. by exists EmptyString, s.
  - destruct s as [|c s].
    + split; [done|]. intros (mid & after & Hs & Hmid).
      destruct mid as [|m mid]; [done | discriminate Hs].
    + rewrite andb_true_iff, bool_decide_eq_true, IH. split.
      * intros (Hc & mid & after & -> & Hmid).
        exists (String c mid), after. split; [done|].
        cbn [list_ascii_of_string]. rewrite !fmap_cons. by f_equal.
      * intros (mid & after & Hs & Hmid).
        destruct mid as [|m mid]; [done|].
        cbn [list_ascii_of_string] in Hmid. rewrite !fmap_cons in Hmid.
        simpl in Hs. injection Hs as <- ->. injection Hmid as Hm Hmid.
        split; [done|]. by exists mid, after.
Qed.

Lemma search_ci_spec (pattern s : string) :
  search_ci pattern s = true ↔ matches_ci pattern s.
Proof.
  unfold matches_ci. induction s as [|c s IH]; simpl.
  - rewrite orb_false_r, starts_with_ci_spec. split.
    + intros (mid & after & Hs & Hmid). by exists EmptyString, mid, after.
    + intros (before & mid & after & Hs & Hmid).
      destruct before as [|b before]; [|discriminate Hs]. by exists mid, after.
  - rewrite orb_true_iff, starts_with_ci_spec, IH. split.
    + intros [(mid & after & Hs & Hmid) | (before & mid & after & -> & Hmid)].
      * by exists EmptyString, mid, after.
      * by exists (String c before), mid, after.
    + intros (before & mid & after & Hs & Hmid).
      destruct before as [|b before].
      * left. by exists mid, after.
      * right. injection Hs as <- ->. by exists before, mid, after.
Qed.

(** X13: [get] of index.js.  When the namespace cannot encode the key
    the store is not called and the callback gets the exception.
    Otherwise the store is called once, with the encoded key and the
    options of [kvOpts], and its value goes to the callback; an error of
    the store that carries [notFound], or whose text has ["notfound"] in
    it in any mix of upper and lower case, reaches the callback as a
    [NotFoundError] with the fixed message ['Key not found in database']
    around it, and any other error reaches it as it is. *)
Theorem get_outcome (ns : Namespace) (space_options : gmap string Value)
    (Namespace_encode : Namespace → Value → gmap string Value → result Value)
    (db_get : Value → gmap string Value → option DbError * Value)
    (k : Value) (opts : gmap string Value) :
  let run := get ns space_options Namespace_encode db_get k opts in
  (∀ e, Namespace_encode ns k opts = Throw e →
        get_store_call run = None ∧ get_error run = Some (Raised e)) ∧
  (∀ key, Namespace_encode ns k opts = Ok key →
     let o := kvOpts ns space_options opts in
     get_store_call run = Some (key, o)
     ∧ get_value run = (db_get key o).2
     ∧ match (db_get key o).1 with
       | None => get_error run = None
       | Some err =>
           (err_notFound err = true ∨ matches_ci "notfound" (err_text err) →
            get_error run
              = Some (NotFoundError "Key not found in database" err))
           ∧ (err_notFound err = false →
              ¬ matches_ci "notfound" (err_text err) →
              get_error run = Some (StoreFailure err))
       end).
Proof.
  simpl. unfold get. split.
  - by intros e ->.
  - intros key ->. destruct (db_get key _) as [[err|] v]; simpl; [|done].
    split; [done|]. split; [done|]. unfold NOT_FOUND_test. split.
    + intros [-> | Hm%search_ci_spec]; [done|].
      by rewrite Hm, orb_true_r.
    + intros -> Hm. simpl.
      destruct (search_ci "notfound" (err_text err)) eqn:Hs; [|done].
      by apply search_ci_spec in Hs.
Qed.

Lemma get_outcome_witness :
  let db_get := λ (_ : Value) (_ : gmap string Value),
    (Some {| err_notFound := false;
             err_text := "Error: Key NotFound in database [706100 6b]" |},
     VUndefined) in
  get_error
    (get sample_namespace ∅ (λ _ k _, Ok k) db_get (VStr "k") ∅)
  = Some (NotFoundError "Key not found in database"
            {| err_notFound := false;
               err_text := "Error: Key NotFound in database [706100 6b]" |}).
Proof.
  intros db_get.
  destruct (get_outcome sample_namespace ∅ (λ _ k _, Ok k) db_get
              (VStr "k") ∅) as [_ Hok].
  destruct (Hok (VStr "k") eq_refl) as (_ & _ & Herr).
  simpl in Herr. destruct Herr as [Hfound _]. apply Hfound. right.
  exists "Error: Key ", "NotFound", " in database [706100 6b]".
  split; reflexivity.
Defined.

